(** * Verification of the redline tracing tools

    Shallow embedding of [tools/trace_lcs.py] (tokenizer, LCS matrix,
    backtracker, coalescer, section text lookup) and of
    [tools/extract_section.py] (section markers and section extraction),
    with the properties stated by the specification. *)

From Stdlib Require Import Ascii String.
From stdpp Require Import base tactics option list numbers strings.

(** ** Python values

    A Python [str] is a sequence of Unicode code points; a code point is a
    natural number.  A token is a [str]; two tokens are compared by value. *)

Abbreviation char := N.
Abbreviation str := (list char).

(** [py s] is the Python string written with the (ASCII) characters of [s]. *)
Definition py (s : string) : str :=
  map N_of_ascii (list_ascii_of_string s).

(** Outcome of running a piece of Python: a value, an [IndexError] raised by
    a subscript out of range, or a loop that was still running when the
    step budget of the model ran out. *)
Inductive result (A : Type) : Type :=
  | Ok (a : A)
  | IndexError
  | OutOfFuel.
Arguments Ok {A} a.
Arguments IndexError {A}.
Arguments OutOfFuel {A}.

Definition result_bind {A B} (f : A → result B) (r : result A) : result B :=
  match r with
  | Ok a => f a
  | IndexError => IndexError
  | OutOfFuel => OutOfFuel
  end.

#[export] Instance result_mbind : MBind result := @result_bind.
#[export] Instance result_mret : MRet result := @Ok.

(** [l[i]] for a non-negative index [i]. *)
Definition subscript {A} (l : list A) (i : nat) : result A :=
  match l !! i with
  | Some x => Ok x
  | None => IndexError
  end.

(** [for x in xs: s = body(x, s)] *)
Fixpoint for_each {S} (xs : list nat) (body : nat → S → result S) (s : S)
  : result S :=
  match xs with
  | [] => Ok s
  | x :: xs' => s' ← body x s; for_each xs' body s'
  end.

(** [range(lo, lo + len)] *)
Definition range (lo len : nat) : list nat := seq lo len.

(** ** The alignment matrix *)

Abbreviation Matrix := (list (list nat)).

(** [matrix[i][j]] *)
Definition get2 (matrix : Matrix) (i j : nat) : result nat :=
  row ← subscript matrix i; subscript row j.

(** [matrix[i][j] = v] *)
Definition set2 (matrix : Matrix) (i j v : nat) : result Matrix :=
  row ← subscript matrix i;
  if decide (j < length row) then Ok (<[i := <[j := v]> row]> matrix)
  else IndexError.

(** Body of the inner loop of [compute_lcs_matrix]. *)
Definition fill_cell (seq1 seq2 : list str) (i j : nat) (matrix : Matrix)
  : result Matrix :=
  a ← subscript seq1 (i - 1);
  b ← subscript seq2 (j - 1);
  if decide (a = b) then
    d ← get2 matrix (i - 1) (j - 1);
    set2 matrix i j (d + 1)
  else
    u ← get2 matrix (i - 1) j;
    l ← get2 matrix i (j - 1);
    set2 matrix i j (u `max` l).

Definition compute_lcs_matrix (seq1 seq2 : list str) : result Matrix :=
  let m := length seq1 in
  let n := length seq2 in
  let matrix := replicate (m + 1) (replicate (n + 1) 0) in
  for_each (range 1 m)
    (λ i matrix, for_each (range 1 n) (fill_cell seq1 seq2 i) matrix)
    matrix.

(** ** Edits *)

Inductive EditOp : Type := EQUAL | DELETE | INSERT.

#[export] Instance EditOp_eq_dec : EqDecision EditOp.
Proof. solve_decision. Defined.

Record Edit : Type := mkEdit {
  op : EditOp;
  tokens : list str;
  pos1 : option nat;
  pos2 : option nat;
}.

#[export] Instance Edit_eq_dec : EqDecision Edit.
Proof. solve_decision. Defined.

(** ** The backtracker

    The state of the [while] loop: the indices [i], [j] and the list
    [edits], which grows at its end. *)
Record BtState : Type := mkBt {
  bt_i : nat;
  bt_j : nat;
  bt_edits : list Edit;
}.

(** [i > 0 and j > 0 and seq1[i - 1] == seq2[j - 1]] *)
Definition bt_is_match (seq1 seq2 : list str) (i j : nat) : result bool :=
  if bool_decide (0 < i) && bool_decide (0 < j) then
    a ← subscript seq1 (i - 1);
    b ← subscript seq2 (j - 1);
    mret (bool_decide (a = b))
  else mret false.

(** [j > 0 and (i == 0 or matrix[i][j - 1] >= matrix[i - 1][j])] *)
Definition bt_is_insert (matrix : Matrix) (i j : nat) : result bool :=
  if bool_decide (0 < j) then
    if bool_decide (i = 0) then mret true
    else
      l ← get2 matrix i (j - 1);
      u ← get2 matrix (i - 1) j;
      mret (bool_decide (u ≤ l))
  else mret false.

(** One iteration of the loop body. *)
Definition backtrack_step (matrix : Matrix) (seq1 seq2 : list str)
    (st : BtState) : result BtState :=
  let i := bt_i st in
  let j := bt_j st in
  let edits := bt_edits st in
  c1 ← bt_is_match seq1 seq2 i j;
  if c1 : bool then
    t ← subscript seq1 (i - 1);
    mret (mkBt (i - 1) (j - 1)
            (edits ++ [mkEdit EQUAL [t] (Some (i - 1)) (Some (j - 1))]))
  else
    c2 ← bt_is_insert matrix i j;
    if c2 : bool then
      t ← subscript seq2 (j - 1);
      mret (mkBt i (j - 1) (edits ++ [mkEdit INSERT [t] None (Some (j - 1))]))
    else if bool_decide (0 < i) then
      t ← subscript seq1 (i - 1);
      mret (mkBt (i - 1) j (edits ++ [mkEdit DELETE [t] (Some (i - 1)) None]))
    else mret st.

(** [while i > 0 or j > 0: ...], run for at most [fuel] iterations. *)
Fixpoint backtrack_loop (fuel : nat) (matrix : Matrix) (seq1 seq2 : list str)
    (st : BtState) : result BtState :=
  if bool_decide (0 < bt_i st) || bool_decide (0 < bt_j st) then
    match fuel with
    | 0 => OutOfFuel
    | S fuel' =>
        st' ← backtrack_step matrix seq1 seq2 st;
        backtrack_loop fuel' matrix seq1 seq2 st'
    end
  else Ok st.

Definition backtrack_lcs (fuel : nat) (matrix : Matrix) (seq1 seq2 : list str)
  : result (list Edit) :=
  st ← backtrack_loop fuel matrix seq1 seq2
         (mkBt (length seq1) (length seq2) []);
  mret (reverse (bt_edits st)).

(** ** The coalescer *)

(** Loop body: the state is the pair of [coalesced] and [current]. *)
Definition coalesce_step (acc : list Edit * Edit) (edit : Edit)
  : list Edit * Edit :=
  let '(coalesced, current) := acc in
  if decide (op edit = op current) then
    (coalesced,
     mkEdit (op current) (tokens current ++ tokens edit)
       (pos1 current) (pos2 current))
  else
    (coalesced ++ [current],
     mkEdit (op edit) (tokens edit) (pos1 edit) (pos2 edit)).

Definition coalesce_edits (edits : list Edit) : list Edit :=
  match edits with
  | [] => []
  | e0 :: rest =>
      let current := mkEdit (op e0) (tokens e0) (pos1 e0) (pos2 e0) in
      let '(coalesced, current) := foldl coalesce_step ([], current) rest in
      coalesced ++ [current]
  end.

(** ** The tokenizer *)

(** [char in ' \t\n\r\u00a0'] *)
Definition is_word_break (c : char) : bool :=
  bool_decide (c ∈ [32; 9; 10; 13; 160]%N).

(** Loop body: the state is the pair of [tokens] and [current]. *)
Definition tokenize_step (acc : list str * str) (c : char)
  : list str * str :=
  let '(toks, current) := acc in
  if is_word_break c then
    let toks := if bool_decide (current ≠ []) then toks ++ [current]
                else toks in
    (toks ++ [[c]], [])
  else (toks, current ++ [c]).

Definition tokenize_words (text : str) : list str :=
  let '(toks, current) := foldl tokenize_step ([], []) text in
  if bool_decide (current ≠ []) then toks ++ [current] else toks.

Definition tokenize_chars (text : str) : list str :=
  map (λ c, [c]) text.

(** [''.join(tokens)] *)
Definition join_tokens (toks : list str) : str := concat toks.

(** ** Text primitives of the Python runtime

    The Unicode tables behind [str.isspace], the regex classes [\s] and [\d],
    [str.lower] and case-insensitive matching belong to the Python runtime,
    not to the tools; the embedding takes them as an interface. *)
Class Unicode : Type := {
  (** Unicode white space: [\s] in a pattern, and what [strip] removes *)
  isspace : char → bool;
  (** Unicode decimal digits: [\d] in a pattern *)
  isdecimal : char → bool;
  (** [str.lower] *)
  lower : str → str;
  (** the set [[ivxlcdm]] as matched under [re.IGNORECASE] *)
  roman_ignorecase : char → bool;
}.

(** The part of ElementTree and of the archive reader that the tools use. *)
Class ElementTree : Type := {
  Element : Type;
  (** [list(root.iter(W + 'p'))] *)
  iter_p : Element → list Element;
  (** [elem.iter(W + 't')] *)
  iter_t : Element → list Element;
  (** [t.text] *)
  elem_text : Element → option str;
  (** [ET.fromstring], on the bytes of a well-formed part *)
  fromstring : list N → Element;
  (** [extract_xml_from_docx(path)] of [trace_lcs.py]: the bytes of
      [word/document.xml], or [None] when the archive or the part is
      missing *)
  extract_xml_from_docx : str → option (list N);
}.

Fixpoint drop_while {A} (p : A → bool) (l : list A) : list A :=
  match l with
  | [] => []
  | x :: l' => if p x then drop_while p l' else l
  end.

(** [s.lstrip()], [s.rstrip()], [s.strip()] *)
Definition lstrip {U : Unicode} (s : str) : str := drop_while isspace s.
Definition rstrip {U : Unicode} (s : str) : str :=
  reverse (drop_while isspace (reverse s)).
Definition strip {U : Unicode} (s : str) : str := rstrip (lstrip s).

(** [s.rstrip(c)] and [s.count(c)] for a one-character [c] *)
Definition rstrip_char (c : char) (s : str) : str :=
  reverse (drop_while (λ x, bool_decide (x = c)) (reverse s)).
Definition count_char (c : char) (s : str) : nat :=
  length (filter (λ x, x = c) s).

(** [sep.join(parts)] *)
Fixpoint str_join (sep : str) (parts : list str) : str :=
  match parts with
  | [] => []
  | [p] => p
  | p :: ps => p ++ sep ++ str_join sep ps
  end.

(** ** Regular expressions

    The patterns of the tools, as syntax, and a backtracking matcher with
    the order of alternatives and the greedy repetition of Python's [re]. *)
Inductive regex : Type :=
  | Eps                               (* the empty pattern *)
  | Cls (p : char → bool)             (* one character of a class *)
  | Cat (r1 r2 : regex)               (* r1 r2 *)
  | Alt (r1 r2 : regex)               (* r1|r2 *)
  | Star (r : regex)                  (* r* *)
  | Dollar.                           (* $ *)

Definition Lit (c : string) : regex :=
  foldr (λ x r, Cat (Cls (λ y, bool_decide (y = x))) r) Eps (py c).
Definition Plus (r : regex) : regex := Cat r (Star r).
Definition Opt (r : regex) : regex := Alt r Eps.

(** Greedy repetition of a matcher [m], at most [n] rounds: try one more
    round and then the rest of the repetition, and fall back to the
    continuation [k] when that fails.  A round counts only if it consumes
    text (every starred pattern of the tools does). *)
Fixpoint star_loop {A} (m : str → (str → option A) → option A)
    (k : str → option A) (n : nat) (s : str) : option A :=
  match n with
  | 0 => k s
  | S n' =>
      match m s (λ s', if bool_decide (length s' < length s)
                       then star_loop m k n' s' else None) with
      | Some x => Some x
      | None => k s
      end
  end.

(** [rmatch r s k]: match [r] at the start of [s] and hand the rest of the
    text to the continuation [k]; when [k] fails, backtrack into [r]. *)
Fixpoint rmatch {A} (r : regex) (s : str) (k : str → option A) : option A :=
  match r with
  | Eps => k s
  | Cls p =>
      match s with
      | c :: s' => if p c then k s' else None
      | [] => None
      end
  | Cat r1 r2 => rmatch r1 s (λ s', rmatch r2 s' k)
  | Alt r1 r2 =>
      match rmatch r1 s k with
      | Some x => Some x
      | None => rmatch r2 s k
      end
  | Star r1 => star_loop (rmatch r1) k (length s) s
  | Dollar =>
      (* end of the text, or just before a final newline *)
      if bool_decide (s = [] ∨ s = [10%N]) then k s else None
  end.

(** [bool(re.match(r, s))] *)
Definition re_match (r : regex) (s : str) : bool :=
  bool_decide (is_Some (rmatch r s (λ _, Some ()))).

Definition in_chars (cs : string) (c : char) : bool :=
  bool_decide (c ∈ py cs).

(** [[a-zA-Z]] *)
Definition is_ascii_letter (c : char) : bool :=
  (bool_decide (97 ≤ c)%N && bool_decide (c ≤ 122)%N)
  || (bool_decide (65 ≤ c)%N && bool_decide (c ≤ 90)%N).

(** [[\s\u00A0]] *)
Definition ws_class {U : Unicode} (c : char) : bool :=
  isspace c || bool_decide (c = 160%N).

(** [\d+(?:\.\d+)*\.?] *)
Definition re_numeric {U : Unicode} : regex :=
  Cat (Plus (Cls isdecimal))
    (Cat (Star (Cat (Lit ".") (Plus (Cls isdecimal)))) (Opt (Lit "."))).
(** [\([a-zA-Z]\)] *)
Definition re_alpha_paren : regex :=
  Cat (Lit "(") (Cat (Cls is_ascii_letter) (Lit ")")).
(** [\([ivxlcdm]+\)] *)
Definition re_roman_paren : regex :=
  Cat (Lit "(") (Cat (Plus (Cls (in_chars "ivxlcdm"))) (Lit ")")).
(** [\([ivxlcdm]+\)] with [re.IGNORECASE] *)
Definition re_roman_paren_ignorecase {U : Unicode} : regex :=
  Cat (Lit "(") (Cat (Plus (Cls roman_ignorecase)) (Lit ")")).
(** [[a-zA-Z]\.] *)
Definition re_alpha_dot : regex :=
  Cat (Cls is_ascii_letter) (Lit ".").
(** [[ivxlcdmIVXLCDM]+\.] *)
Definition re_roman_dot : regex :=
  Cat (Plus (Cls (in_chars "ivxlcdmIVXLCDM"))) (Lit ".").

(** The group of [SECTION_PATTERN]: the five marker forms, in order. *)
Definition re_marker {U : Unicode} : regex :=
  Alt re_numeric
    (Alt re_alpha_paren
       (Alt re_roman_paren
          (Alt re_alpha_dot re_roman_dot))).

(** [SECTION_PATTERN.match(text)]: [None], or [match.group(1)].  The
    pattern is [^[\s\u00A0]*(marker)[\s\u00A0]+]; the group is the text
    between the place where the marker starts and the place where it
    ends.  The pattern of [find_section_text] is the same. *)
Definition SECTION_PATTERN_match {U : Unicode} (text : str) : option str :=
  rmatch (Star (Cls ws_class)) text (λ s1,
    rmatch re_marker s1 (λ s2,
      rmatch (Plus (Cls ws_class)) s2 (λ _,
        Some (take (length s1 - length s2) s1)))).

(** ** [extract_section.py] *)

(** [get_paragraph_text], also [get_element_text] *)
Definition get_paragraph_text {ET : ElementTree} (para : Element) : str :=
  concat (omap (λ t, match elem_text t with
                     | Some s => if bool_decide (s ≠ []) then Some s else None
                     | None => None
                     end) (iter_t para)).

Definition is_section_start {U : Unicode} (text : str) : bool :=
  bool_decide (is_Some (SECTION_PATTERN_match text)).

Definition get_section_level {U : Unicode} (text : str) : nat * string :=
  match SECTION_PATTERN_match text with
  | None => (0, "")
  | Some group1 =>
      let marker := strip group1 in
      if re_match (Cat re_numeric Dollar) marker then
        let level := count_char 46%N (rstrip_char 46%N marker) + 1 in
        (level, "numeric")
      else if re_match (Cat re_alpha_paren Dollar) marker then
        (10, "alpha_paren")
      else if re_match (Cat re_roman_paren_ignorecase Dollar) marker then
        (11, "roman_paren")
      else if re_match (Cat re_alpha_dot Dollar) marker then
        (10, "alpha_dot")
      else if re_match (Cat re_roman_dot Dollar) marker then
        (11, "roman_dot")
      else (0, "")
  end%string.

Definition find_paragraphs {ET : ElementTree} (root : Element) : list Element :=
  iter_p root.

(** The test that a paragraph starts the wanted section:
    [text.lstrip().lower()] starts with [section_id.lower()], and what
    follows is nothing or one of [' \t\n\u00a0']. *)
Definition starts_with_section {U : Unicode} (text section_id : str) : bool :=
  let text_normalized := lower (lstrip text) in
  let section_normalized := lower section_id in
  if bool_decide (section_normalized `prefix_of` text_normalized) then
    match drop (length section_normalized) text_normalized with
    | [] => true
    | c :: _ => bool_decide (c ∈ [32; 9; 10; 160]%N)
    end
  else false.

(** The loop variables of [find_section]. *)
Record FsState {ET : ElementTree} : Type := mkFs {
  fs_result : list Element;
  fs_found : bool;
  fs_target_level : option nat;
  fs_target_type : option string;
}.
Arguments mkFs {ET} _ _ _ _.

(** The two [break] tests of [find_section] for a paragraph that follows
    the section start. *)
Definition hits_next_section {U : Unicode} (target_level : option nat)
    (target_type : option string) (text : str) : bool :=
  if is_section_start text then
    let '(level, stype) := get_section_level text in
    (bool_decide (Some stype = target_type) &&
       match target_level with
       | Some tl => bool_decide (level ≤ tl)
       | None => false
       end)
    || (bool_decide (stype = "numeric"%string) && bool_decide (level ≤ 2))
  else false.

(** The [for] loop of [find_section]; a [break] returns the state. *)
Fixpoint find_section_loop {U : Unicode} {ET : ElementTree} (section_id : str)
    (paragraphs : list Element) (st : FsState) : FsState :=
  match paragraphs with
  | [] => st
  | para :: paragraphs' =>
      let text := get_paragraph_text para in
      if negb (fs_found st) then
        if starts_with_section text section_id then
          let '(level, stype) := get_section_level text in
          find_section_loop section_id paragraphs'
            (mkFs (fs_result st ++ [para]) true (Some level) (Some stype))
        else find_section_loop section_id paragraphs' st
      else if hits_next_section (fs_target_level st) (fs_target_type st) text
      then st
      else
        find_section_loop section_id paragraphs'
          (mkFs (fs_result st ++ [para]) (fs_found st)
             (fs_target_level st) (fs_target_type st))
  end.

Definition find_section {U : Unicode} {ET : ElementTree} (root : Element)
    (section_id : str) : list Element :=
  let paragraphs := find_paragraphs root in
  fs_result (find_section_loop section_id paragraphs (mkFs [] false None None)).

(** ** [extract_section.py]: the other queries *)

(** What the other queries use of ElementTree. *)
Class ElementQueries (ET : ElementTree) : Type := {
  (** [list(elem.iter())]: the element and all below it, in document
      order *)
  iter_all : Element → list Element;
  (** [root.iter(W + 'footnote')] and [root.iter(W + 'endnote')] *)
  iter_footnote : Element → list Element;
  iter_endnote : Element → list Element;
  (** [elem.get(W + 'id')] *)
  get_id : Element → option str;
}.

(** The [for] loop of [find_paragraph_by_text]; a [break] returns
    [result]. *)
Fixpoint find_paragraph_by_text_loop {U : Unicode} {ET : ElementTree}
    (search_lower : str) (paragraphs : list Element) (result : list Element)
    (found : bool) : list Element :=
  match paragraphs with
  | [] => result
  | para :: paragraphs' =>
      let text := get_paragraph_text para in
      if negb found then
        if bool_decide (search_lower `prefix_of` lstrip (lower text)) then
          find_paragraph_by_text_loop search_lower paragraphs'
            (result ++ [para]) true
        else find_paragraph_by_text_loop search_lower paragraphs' result found
      else if is_section_start text then result
      else
        find_paragraph_by_text_loop search_lower paragraphs'
          (result ++ [para]) found
  end.

Definition find_paragraph_by_text {U : Unicode} {ET : ElementTree}
    (root : Element) (search_text : str) : list Element :=
  let paragraphs := find_paragraphs root in
  let search_lower := lower search_text in
  find_paragraph_by_text_loop search_lower paragraphs [] false.

(** [needle in haystack] for two strings. *)
Fixpoint str_contains (needle haystack : str) : bool :=
  bool_decide (needle `prefix_of` haystack) ||
  match haystack with
  | [] => false
  | _ :: haystack' => str_contains needle haystack'
  end.

(** [min(x :: l, key=key)]: the first element with the least key. *)
Definition min_by_key {A} (key : A → nat) (x : A) (l : list A) : A :=
  foldl (λ best e, if bool_decide (key e < key best) then e else best) x l.

Definition find_element_by_text {U : Unicode} {ET : ElementTree}
    {EQ : ElementQueries ET} (root : Element) (search_text : str)
  : list Element :=
  let search_lower := lower search_text in
  let matches :=
    filter (λ elem, str_contains search_lower
                      (lower (get_paragraph_text elem)) = true)
      (iter_all root) in
  match matches with
  | [] => []
  | m :: ms => [min_by_key (λ e, length (iter_all e)) m ms]
  end.

(** The loops of [find_footnote] and [find_endnote]: the first note whose
    id attribute is [note_id]. *)
Fixpoint first_with_id {ET : ElementTree} {EQ : ElementQueries ET}
    (notes : list Element) (note_id : str) : list Element :=
  match notes with
  | [] => []
  | note :: notes' =>
      if bool_decide (get_id note = Some note_id) then [note]
      else first_with_id notes' note_id
  end.

Definition find_footnote {ET : ElementTree} {EQ : ElementQueries ET}
    (root : Element) (note_id : str) : list Element :=
  first_with_id (iter_footnote root) note_id.

Definition find_endnote {ET : ElementTree} {EQ : ElementQueries ET}
    (root : Element) (note_id : str) : list Element :=
  first_with_id (iter_endnote root) note_id.

(** ** [extract_section.py]: queries *)

(** Case-insensitive matching and the rest of the environment of
    [extract_from_docx]. *)
Class QueryEnv (ET : ElementTree) : Type := {
  (** the character [x] of a pattern compiled with [re.IGNORECASE]
      matches the character [y] of the text *)
  ignorecase_eq : char → char → bool;
  (** [extract_xml_from_docx(docx_path, xml_file)] of
      [extract_section.py] *)
  extract_xml_file : str → string → option (list N);
  (** [pretty_print_xml] *)
  pretty_print_xml : list Element → str;
}.

(** A literal under [re.IGNORECASE]. *)
Definition LitI {ET : ElementTree} {QE : QueryEnv ET} (c : string) : regex :=
  foldr (λ x r, Cat (Cls (ignorecase_eq x)) r) Eps (py c).

(** [.]: any character but the newline. *)
Definition re_dot : regex := Cls (λ c, bool_decide (c ≠ 10%N)).

(** The class of the two quote characters (single and double), under
    [re.IGNORECASE]. *)
Definition re_quote {ET : ElementTree} {QE : QueryEnv ET} : regex :=
  Cls (λ c, ignorecase_eq 39%N c || ignorecase_eq 34%N c).

(** [re.match(pre (grp) post, s)]: [None], or [match.group(1)]. *)
Definition rmatch_group (pre grp post : regex) (s : str) : option str :=
  rmatch pre s (λ s1,
    rmatch grp s1 (λ s2,
      rmatch post s2 (λ _, Some (take (length s1 - length s2) s1)))).

Definition parse_query {U : Unicode} {ET : ElementTree} {QE : QueryEnv ET}
    (query : str) : string * str :=
  let query := strip query in
  (* ^section\s+(.+)$ *)
  match rmatch_group (Cat (LitI "section") (Plus (Cls isspace)))
          (Plus re_dot) Dollar query with
  | Some g => ("section", strip g)
  | None =>
  (* ^para(?:graph)?\s+Q(.+)Q$, with Q the class of the two quotes *)
  match rmatch_group
          (Cat (LitI "para")
             (Cat (Opt (LitI "graph")) (Cat (Plus (Cls isspace)) re_quote)))
          (Plus re_dot) (Cat re_quote Dollar) query with
  | Some g => ("paragraph", g)
  | None =>
  (* ^footnote\s+(\d+)$ *)
  match rmatch_group (Cat (LitI "footnote") (Plus (Cls isspace)))
          (Plus (Cls isdecimal)) Dollar query with
  | Some g => ("footnote", g)
  | None =>
  (* ^endnote\s+(\d+)$ *)
  match rmatch_group (Cat (LitI "endnote") (Plus (Cls isspace)))
          (Plus (Cls isdecimal)) Dollar query with
  | Some g => ("endnote", g)
  | None =>
  (* ^element\s+Q(.+)Q$ *)
  match rmatch_group
          (Cat (LitI "element") (Cat (Plus (Cls isspace)) re_quote))
          (Plus re_dot) (Cat re_quote Dollar) query with
  | Some g => ("element", g)
  | None => ("section", query)
  end end end end end%string.

(** The choice of the part to read. *)
Definition query_xml_file (query_type : string) : string :=
  if decide (query_type = "footnote") then "word/footnotes.xml"
  else if decide (query_type = "endnote") then "word/endnotes.xml"
  else "word/document.xml".

(** The dispatch on the query type; [None] stands for the last branch,
    which reports an unknown query type. *)
Definition query_elements {U : Unicode} {ET : ElementTree}
    {EQ : ElementQueries ET} (root : Element) (query_type : string)
    (query_value : str) : option (list Element) :=
  if decide (query_type = "section") then
    Some (find_section root query_value)
  else if decide (query_type = "paragraph") then
    Some (find_paragraph_by_text root query_value)
  else if decide (query_type = "footnote") then
    Some (find_footnote root query_value)
  else if decide (query_type = "endnote") then
    Some (find_endnote root query_value)
  else if decide (query_type = "element") then
    Some (find_element_by_text root query_value)
  else None.

Definition extract_from_docx {U : Unicode} {ET : ElementTree}
    {EQ : ElementQueries ET} {QE : QueryEnv ET} (docx_path query : str)
  : option str :=
  let '(query_type, query_value) := parse_query query in
  let xml_file := query_xml_file query_type in
  match extract_xml_file docx_path xml_file with
  | None => None
  | Some xml_content =>
      let root := fromstring xml_content in
      match query_elements root query_type query_value with
      | None => None
      | Some elements =>
          if bool_decide (elements = []) then None
          else Some (pretty_print_xml elements)
      end
  end.

(** ** [trace_lcs.py]: section text *)

(** The [for] loop of [find_section_text]: the state is [result_texts] and
    [found]; a [break] returns [result_texts]. *)
Fixpoint find_section_text_loop {U : Unicode} {ET : ElementTree} (section_id : str)
    (paragraphs : list Element) (result_texts : list str) (found : bool)
  : list str :=
  match paragraphs with
  | [] => result_texts
  | para :: paragraphs' =>
      let text := get_paragraph_text para in
      if negb found then
        if starts_with_section text section_id then
          find_section_text_loop section_id paragraphs'
            (result_texts ++ [text]) true
        else find_section_text_loop section_id paragraphs' result_texts found
      else if bool_decide (is_Some (SECTION_PATTERN_match text)) then
        result_texts
      else
        find_section_text_loop section_id paragraphs'
          (result_texts ++ [text]) found
  end.

Definition find_section_text {U : Unicode} {ET : ElementTree} (docx_path : str)
    (section_id : str) : option str :=
  match extract_xml_from_docx docx_path with
  | None => None
  | Some xml_content =>
      let root := fromstring xml_content in
      let paragraphs := iter_p root in
      let result_texts :=
        find_section_text_loop section_id paragraphs [] false in
      if bool_decide (result_texts ≠ []) then Some (str_join (py " ") result_texts)
      else None
  end.

(** ** Vocabulary of the specification *)

(** No two neighbours of an edit script have the same operation. *)
Definition no_adjacent_same_op (edits : list Edit) : Prop :=
  ∀ i e1 e2, edits !! i = Some e1 → edits !! S i = Some e2 → op e1 ≠ op e2.

(** Number of edits of [l] whose operation differs from the one before
    it, the one before the first being [o]. *)
Fixpoint op_changes (o : EditOp) (l : list Edit) : nat :=
  match l with
  | [] => 0
  | e :: l' => (if decide (op e = o) then 0 else 1) + op_changes (op e) l'
  end.

(** [g] is the revision group of the run [run]: the operation and the
    positions of the first edit of the run, and the tokens of the whole
    run in order. *)
Definition is_group_of (run : list Edit) (g : Edit) : Prop :=
  ∃ e0 tl,
    run = e0 :: tl ∧
    Forall (λ e, op e = op e0) tl ∧
    g = mkEdit (op e0) (concat (map tokens run)) (pos1 e0) (pos2 e0).

(** [s] is a common subsequence of [l1] and [l2]. *)
Definition common_subsequence (s l1 l2 : list str) : Prop :=
  s `sublist_of` l1 ∧ s `sublist_of` l2.

(** Length of a longest common subsequence, by the textbook recursion on
    the first tokens. *)
Fixpoint lcs_length (l1 l2 : list str) : nat :=
  match l1 with
  | [] => 0
  | a :: l1' =>
      (fix inner (l2 : list str) : nat :=
         match l2 with
         | [] => 0
         | b :: l2' =>
             if decide (a = b) then S (lcs_length l1' l2')
             else lcs_length l1' l2 `max` inner l2'
         end) l2
  end.

(** The same for the first [i] tokens of [seq1] and the first [j] of
    [seq2]; the recursion then runs from their last tokens. *)
Definition lcs_prefix (seq1 seq2 : list str) (i j : nat) : nat :=
  lcs_length (reverse (take i seq1)) (reverse (take j seq2)).

(** The matrix has [m + 1] rows of [n + 1] entries. *)
Definition well_shaped (m n : nat) (matrix : Matrix) : Prop :=
  length matrix = S m ∧ ∀ r row, matrix !! r = Some row → length row = S n.

(** The cells that the two loops have assigned when they reach [(i, j)],
    with row 0 and column 0, which stay as initialised. *)
Definition cell_done (i j i' j' : nat) : Prop :=
  i' = 0 ∨ j' = 0 ∨ i' < i ∨ (i' = i ∧ j' < j).

(** Loop invariant of [compute_lcs_matrix]. *)
Definition filled_upto (seq1 seq2 : list str) (i j : nat) (matrix : Matrix)
  : Prop :=
  well_shaped (length seq1) (length seq2) matrix ∧
  ∀ i' j', i' ≤ length seq1 → j' ≤ length seq2 → cell_done i j i' j' →
    get2 matrix i' j' = Ok (lcs_prefix seq1 seq2 i' j').

(** The tokens of the [EQUAL] and [DELETE] edits of a script, in order, and
    those of its [EQUAL] and [INSERT] edits. *)
Definition sequence1_of (script : list Edit) : list str :=
  concat (map tokens (filter (λ e, op e = EQUAL ∨ op e = DELETE) script)).
Definition sequence2_of (script : list Edit) : list str :=
  concat (map tokens (filter (λ e, op e = EQUAL ∨ op e = INSERT) script)).

(** Loop invariant of [backtrack_lcs]: the edits collected so far, put in
    forward order, rebuild what lies after [i] in [seq1] and after [j] in
    [seq2]. *)
Definition bt_invariant (seq1 seq2 : list str) (st : BtState) : Prop :=
  bt_i st ≤ length seq1 ∧ bt_j st ≤ length seq2 ∧
  sequence1_of (reverse (bt_edits st)) = drop (bt_i st) seq1 ∧
  sequence2_of (reverse (bt_edits st)) = drop (bt_j st) seq2.

(** A paragraph text that ends a section whose start paragraph has level
    [target_level] and type [target_type]: it has a marker, and the marker
    is of the same type at the same or a shallower depth, or is numeric at
    depth at most 2. *)
Definition is_section_boundary {U : Unicode} (target_level : nat)
    (target_type : string) (text : str) : Prop :=
  is_section_start text = true ∧
  ((get_section_level text).2 = target_type ∧
     (get_section_level text).1 ≤ target_level
   ∨ (get_section_level text).2 = "numeric"%string ∧
     (get_section_level text).1 ≤ 2).

(** ** What a pattern matches

    [matches r w s]: the pattern [r] can consume [w] when the text that
    follows is [s] (only [$] looks at [s]).  A round of a repetition
    consumes at least one character. *)
Inductive matches : regex → str → str → Prop :=
  | matches_Eps s : matches Eps [] s
  | matches_Cls (p : char → bool) c s :
      p c = true → matches (Cls p) [c] s
  | matches_Cat r1 r2 w1 w2 s :
      matches r1 w1 (w2 ++ s) → matches r2 w2 s →
      matches (Cat r1 r2) (w1 ++ w2) s
  | matches_Alt_l r1 r2 w s : matches r1 w s → matches (Alt r1 r2) w s
  | matches_Alt_r r1 r2 w s : matches r2 w s → matches (Alt r1 r2) w s
  | matches_Star_0 r s : matches (Star r) [] s
  | matches_Star_S r w1 w2 s :
      w1 ≠ [] → matches r w1 (w2 ++ s) → matches (Star r) w2 s →
      matches (Star r) (w1 ++ w2) s
  | matches_Dollar s : s = [] ∨ s = [10%N] → matches Dollar [] s.

(** The pattern has no [$]. *)
Fixpoint dollar_free (r : regex) : bool :=
  match r with
  | Eps | Cls _ => true
  | Cat r1 r2 | Alt r1 r2 => dollar_free r1 && dollar_free r2
  | Star r1 => dollar_free r1
  | Dollar => false
  end.

(** The pattern may match the empty text. *)
Fixpoint nullable (r : regex) : bool :=
  match r with
  | Eps | Star _ | Dollar => true
  | Cls _ => false
  | Cat r1 r2 => nullable r1 && nullable r2
  | Alt r1 r2 => nullable r1 || nullable r2
  end.

(** Some character class of the pattern accepts [c]. *)
Fixpoint accepts_char (r : regex) (c : char) : bool :=
  match r with
  | Eps | Dollar => false
  | Cls p => p c
  | Cat r1 r2 | Alt r1 r2 => accepts_char r1 c || accepts_char r2 c
  | Star r1 => accepts_char r1 c
  end.

(** [r'] is [r] with larger character classes. *)
Fixpoint weaker (r r' : regex) : Prop :=
  match r, r' with
  | Eps, Eps | Dollar, Dollar => True
  | Cls p, Cls p' => ∀ c, p c = true → p' c = true
  | Cat r1 r2, Cat r1' r2' | Alt r1 r2, Alt r1' r2' =>
      weaker r1 r1' ∧ weaker r2 r2'
  | Star r1, Star r1' => weaker r1 r1'
  | _, _ => False
  end.

(** The text of a numeric marker: digit groups separated by periods, with
    or without a last period. *)
Definition numeric_marker_text (g1 : str) (gs : list str) (dot : bool) : str :=
  g1 ++ concat (map (λ g, 46%N :: g) gs) ++ (if dot then [46%N] else []).

(** Facts about the runtime's tables that the marker patterns rely on:
    decimal digits, the period, the parentheses and the ASCII letters are
    not white space (nor the no-break space); the period is not a decimal
    digit; and case-insensitive matching of [[ivxlcdm]] accepts these
    letters themselves. *)
Definition python_tables (U : Unicode) : Prop :=
  (∀ c, isdecimal c = true → ws_class c = false) ∧
  (∀ c, c ∈ py ".()" ∨ is_ascii_letter c = true → ws_class c = false) ∧
  isdecimal 46%N = false ∧
  (∀ c, in_chars "ivxlcdm" c = true → roman_ignorecase c = true).

(** ** Instances for examples

    The runtime tables on ASCII text, and a small document tree: a
    document is a list of paragraphs, a paragraph a list of text runs. *)
Definition ascii_unicode : Unicode := {|
  isspace c := bool_decide (c ∈ [9; 10; 11; 12; 13; 28; 29; 30; 31; 32; 133; 160]%N);
  isdecimal c := bool_decide (48 ≤ c)%N && bool_decide (c ≤ 57)%N;
  lower s := map (λ c, if bool_decide (65 ≤ c)%N && bool_decide (c ≤ 90)%N
                       then (c + 32)%N else c) s;
  roman_ignorecase := in_chars "ivxlcdmIVXLCDM";
|}.

Inductive Xml : Type :=
  | XDoc (paragraphs : list (list str))
  | XPara (runs : list str)
  | XText (text : str).

(** The paragraphs of a toy archive: its lines, one run each. *)
Fixpoint split_lines (current : list N) (bytes : list N) : list (list N) :=
  match bytes with
  | [] => [current]
  | b :: bytes' =>
      if bool_decide (b = 10%N) then current :: split_lines [] bytes'
      else split_lines (current ++ [b]) bytes'
  end.

Definition toy_tree (files : str → option (list N)) : ElementTree := {|
  Element := Xml;
  iter_p e :=
    match e with
    | XDoc ps => map XPara ps
    | XPara runs => [XPara runs]
    | XText _ => []
    end;
  iter_t e :=
    match e with
    | XDoc ps => concat (map (map XText) ps)
    | XPara runs => map XText runs
    | XText t => [XText t]
    end;
  elem_text e :=
    match e with
    | XText t => Some t
    | _ => None
    end;
  fromstring bytes := XDoc (map (λ line, [line]) (split_lines [] bytes));
  extract_xml_from_docx := files;
|}.

(** One archive, [lease.docx], of four paragraphs. *)
Definition lease_bytes : list N :=
  py "3.1 Rent" ++ [10%N] ++ py "is due monthly" ++ [10%N] ++
  py "(a) in advance" ++ [10%N] ++ py "3.2 Term".

Definition lease_files (path : str) : option (list N) :=
  if bool_decide (path = py "lease.docx") then Some lease_bytes else None.

(** The other queries on the small document tree (it has no notes), and
    case-insensitive matching on ASCII text; the archive holds the lease
    as its main part. *)
Definition toy_queries (files : str → option (list N))
  : ElementQueries (toy_tree files) := {|
  iter_all (e : @Element (toy_tree files)) :=
    match e with
    | XDoc ps => e :: concat (map (λ runs, XPara runs :: map XText runs) ps)
    | XPara runs => e :: map XText runs
    | XText _ => [e]
    end;
  iter_footnote _ := [];
  iter_endnote _ := [];
  get_id _ := None;
|}.

Definition ascii_lower (c : char) : char :=
  if bool_decide (65 ≤ c)%N && bool_decide (c ≤ 90)%N then (c + 32)%N else c.

Definition toy_query_env (files : str → option (list N))
  : QueryEnv (toy_tree files) := {|
  ignorecase_eq x y := bool_decide (ascii_lower x = ascii_lower y);
  extract_xml_file path xml_file :=
    if decide (xml_file = "word/document.xml"%string) then files path
    else None;
  (* one line per element *)
  pretty_print_xml (elements : list (@Element (toy_tree files))) :=
    concat (map (λ e, get_paragraph_text e ++ [10%N]) elements);
|}.

(** The tree of [lease.docx], as [fromstring] builds it. *)
Definition lease_root : Xml :=
  XDoc [[py "3.1 Rent"]; [py "is due monthly"]; [py "(a) in advance"];
        [py "3.2 Term"]].

(** A list with roman and alphabetic items. *)
Definition items_root : Xml :=
  XDoc [[py "(i) first"]; [py "(ii) second"]; [py "(b) third"]].

(** A generic form of "neighbours are related": every two consecutive
    elements of [l] satisfy [R]. *)
Definition adjacent {A} (R : A → A → Prop) (l : list A) : Prop :=
  ∀ i a b, l !! i = Some a → l !! S i = Some b → R a b.

(** Shapes of the tokens of [tokenize_words]: one white-space character,
    or a non-empty run without white space. *)
Definition is_space_token (t : str) : Prop :=
  ∃ c, t = [c] ∧ is_word_break c = true.
Definition is_word_token (t : str) : Prop :=
  t ≠ [] ∧ Forall (λ c, is_word_break c = false) t.

(** What a raw edit says about the inputs: one token, read at the
    positions the edit carries; a position is absent exactly on the side
    the edit does not touch. *)
Definition edit_reads (seq1 seq2 : list str) (e : Edit) : Prop :=
  match op e with
  | EQUAL => ∃ p q t, pos1 e = Some p ∧ pos2 e = Some q ∧ tokens e = [t] ∧
                      seq1 !! p = Some t ∧ seq2 !! q = Some t
  | DELETE => ∃ p t, pos1 e = Some p ∧ pos2 e = None ∧ tokens e = [t] ∧
                     seq1 !! p = Some t
  | INSERT => ∃ q t, pos1 e = None ∧ pos2 e = Some q ∧ tokens e = [t] ∧
                     seq2 !! q = Some t
  end.

(** Number of [EQUAL] edits of a script. *)
Definition equal_count (script : list Edit) : nat :=
  length (filter (λ e, op e = EQUAL) script).

(** The count of [print_coalescing_analysis]:
    [for i in range(1, len(coalesced)): if coalesced[i].op !=
    coalesced[i-1].op: transitions += 1]. *)
Definition count_transitions (coalesced : list Edit) : result nat :=
  for_each (range 1 (length coalesced - 1))
    (λ i transitions,
       a ← subscript coalesced i;
       b ← subscript coalesced (i - 1);
       if decide (op a ≠ op b) then mret (transitions + 1)
       else mret transitions)
    0.

(** The data flow of [main] once the two texts are known: tokenize in the
    chosen mode, build the matrix, backtrack, and coalesce unless
    [--no-coalesce] is given.  The result is the script that is printed. *)
Definition trace_edits (chars no_coalesce : bool) (text1 text2 : str)
    (fuel : nat) : result (list Edit) :=
  let tokens1 := if chars then tokenize_chars text1 else tokenize_words text1 in
  let tokens2 := if chars then tokenize_chars text2 else tokenize_words text2 in
  matrix ← compute_lcs_matrix tokens1 tokens2;
  raw_edits ← backtrack_lcs fuel matrix tokens1 tokens2;
  if no_coalesce then mret raw_edits
  else mret (coalesce_edits raw_edits).

(** * Properties *)

(** ** Tokenizer *)

Lemma tokenize_step_join (text : str) : ∀ toks current,
  let '(toks', current') := foldl tokenize_step (toks, current) text in
  concat toks' ++ current' = concat toks ++ current ++ text.
Proof.
  induction text as [|c text IH]; intros toks current; cbn [foldl].
  - by rewrite app_nil_r.
  - unfold tokenize_step at 2.
    destruct (is_word_break c).
    + specialize (IH ((if bool_decide (current ≠ []) then toks ++ [current]
                       else toks) ++ [[c]]) []).
      destruct (foldl tokenize_step _ text) as [toks' current'].
      rewrite IH. case_bool_decide as Hc.
      * rewrite !concat_app. simpl. by rewrite !app_nil_r, <-!app_assoc.
      * subst current.
        rewrite concat_app. simpl. by rewrite <-!app_assoc.
    + specialize (IH toks (current ++ [c])).
      destruct (foldl tokenize_step _ text) as [toks' current'].
      rewrite IH. by rewrite <-!app_assoc.
Qed.

(** C4: [tokenize_words] is defined on every string, gives no token for the
    empty string, and joining its tokens in order gives the text back. *)
Theorem tokenize_words_lossless :
  tokenize_words [] = [] ∧
  ∀ text : str, ∃ toks : list str,
    tokenize_words text = toks ∧ join_tokens toks = text.
Proof.
  split; [reflexivity|].
  intros text. eexists; split; [reflexivity|].
  unfold tokenize_words, join_tokens.
  pose proof (tokenize_step_join text [] []) as H.
  destruct (foldl tokenize_step _ text) as [toks current].
  simpl in H. rewrite <-H. case_bool_decide as Hc.
  - rewrite concat_app. simpl. by rewrite app_nil_r.
  - subst current. by rewrite app_nil_r.
Qed.

(** ** Coalescer *)

Lemma no_adjacent_same_op_cons e0 e1 l :
  no_adjacent_same_op (e0 :: e1 :: l) ↔
  op e0 ≠ op e1 ∧ no_adjacent_same_op (e1 :: l).
Proof.
  unfold no_adjacent_same_op. split.
  - intros H. split.
    + by apply (H 0).
    + intros i a b Ha Hb. by apply (H (S i)).
  - intros [H0 H] [|i] a b Ha Hb.
    + simpl in Ha, Hb. by simplify_eq.
    + by apply (H i).
Qed.

Lemma no_adjacent_same_op_singleton e : no_adjacent_same_op [e].
Proof. intros [|i] a b Ha Hb; simpl in Hb; done. Qed.

Lemma no_adjacent_same_op_nil : no_adjacent_same_op [].
Proof. intros i a b Ha; done. Qed.

Lemma op_changes_le o l : op_changes o l ≤ length l.
Proof.
  revert o. induction l as [|e l IH]; intros o; simpl; [lia|].
  specialize (IH (op e)). destruct (decide (op e = o)); lia.
Qed.

Lemma op_changes_full e0 l :
  op_changes (op e0) l = length l ↔ no_adjacent_same_op (e0 :: l).
Proof.
  revert e0. induction l as [|e l IH]; intros e0; simpl.
  - split; [intros _; apply no_adjacent_same_op_singleton | done].
  - rewrite no_adjacent_same_op_cons, <-IH.
    pose proof (op_changes_le (op e) l).
    destruct (decide (op e = op e0)) as [Heq|Hne]; split.
    + lia.
    + intros [Hne _]. by rewrite Heq in Hne.
    + intros. split; [congruence | lia].
    + intros [_ ?]. lia.
Qed.

Lemma coalesce_fold_length rest : ∀ coalesced current,
  length (foldl coalesce_step (coalesced, current) rest).1 =
  length coalesced + op_changes (op current) rest.
Proof.
  induction rest as [|e rest IH]; intros coalesced current; cbn [foldl].
  - simpl. lia.
  - unfold coalesce_step at 2. cbn [op_changes].
    destruct (decide (op e = op current)) as [Heq|Hne].
    + rewrite IH. simpl. rewrite Heq. lia.
    + rewrite IH. rewrite length_app. simpl. lia.
Qed.

Lemma coalesce_edits_length e0 rest :
  length (coalesce_edits (e0 :: rest)) = 1 + op_changes (op e0) rest.
Proof.
  unfold coalesce_edits.
  pose proof (coalesce_fold_length rest []
    (mkEdit (op e0) (tokens e0) (pos1 e0) (pos2 e0))) as H.
  destruct (foldl coalesce_step _ rest) as [coalesced current].
  simpl in H. rewrite length_app. simpl. lia.
Qed.

(** C5: coalescing never lengthens a script, and keeps its length exactly
    when no two neighbouring edits have the same operation. *)
Theorem coalesce_edits_length_le (edits : list Edit) :
  length (coalesce_edits edits) ≤ length edits ∧
  (length (coalesce_edits edits) = length edits ↔ no_adjacent_same_op edits).
Proof.
  destruct edits as [|e0 rest].
  - simpl. split; [lia|]. split; [intros _; apply no_adjacent_same_op_nil|done].
  - rewrite coalesce_edits_length. cbn [length].
    pose proof (op_changes_le (op e0) rest).
    split; [lia|]. rewrite <-op_changes_full. lia.
Qed.

Lemma is_group_of_copy (e : Edit) :
  is_group_of [e] (mkEdit (op e) (tokens e) (pos1 e) (pos2 e)).
Proof.
  exists e, []. split; [done|]. split; [constructor|].
  simpl. by rewrite app_nil_r.
Qed.

Lemma is_group_of_extend run current edit :
  is_group_of run current → op edit = op current →
  is_group_of (run ++ [edit])
    (mkEdit (op current) (tokens current ++ tokens edit)
       (pos1 current) (pos2 current)).
Proof.
  intros (e0 & tl & -> & Hall & ->) Hop. simpl in *.
  exists e0, (tl ++ [edit]). split; [done|]. split.
  - apply Forall_app. split; [done|]. by constructor.
  - f_equal. cbn [map concat]. rewrite map_app, concat_app. simpl.
    by rewrite app_nil_r, app_assoc.
Qed.

Lemma coalesce_fold_runs rest : ∀ coalesced current run,
  is_group_of run current →
  ∃ runs groups run' current',
    foldl coalesce_step (coalesced, current) rest =
      (coalesced ++ groups, current') ∧
    Forall2 is_group_of runs groups ∧
    is_group_of run' current' ∧
    concat runs ++ run' = run ++ rest.
Proof.
  induction rest as [|e rest IH]; intros coalesced current run Hrun;
    cbn [foldl].
  - exists [], [], run, current. by rewrite !app_nil_r.
  - unfold coalesce_step at 2.
    destruct (decide (op e = op current)) as [Heq|Hne].
    + destruct (IH coalesced _ _ (is_group_of_extend _ _ e Hrun Heq))
        as (runs & groups & run' & current' & Hf & Hg & Hc & Hcat).
      exists runs, groups, run', current'.
      by rewrite Hf, Hcat, <-app_assoc.
    + destruct (IH (coalesced ++ [current]) _ _ (is_group_of_copy e))
        as (runs & groups & run' & current' & Hf & Hg & Hc & Hcat).
      exists (run :: runs), (current :: groups), run', current'.
      rewrite Hf, <-app_assoc. simpl. rewrite <-app_assoc, Hcat.
      repeat split; auto.
Qed.

Lemma no_adjacent_same_op_ext l1 l2 :
  map op l1 = map op l2 → no_adjacent_same_op l1 → no_adjacent_same_op l2.
Proof.
  intros Hmap H i a b Ha Hb.
  assert (map op l2 !! i = Some (op a)) as Ha' by by rewrite list_lookup_fmap, Ha.
  assert (map op l2 !! S i = Some (op b)) as Hb' by by rewrite list_lookup_fmap, Hb.
  rewrite <-Hmap, list_lookup_fmap in Ha', Hb'.
  destruct (l1 !! i) as [a'|] eqn:Ea; [|done].
  destruct (l1 !! S i) as [b'|] eqn:Eb; [|done].
  injection Ha' as <-. injection Hb' as <-. by eapply H.
Qed.

Lemma no_adjacent_same_op_snoc l e1 e2 :
  no_adjacent_same_op (l ++ [e1]) → op e1 ≠ op e2 →
  no_adjacent_same_op ((l ++ [e1]) ++ [e2]).
Proof.
  intros H Hne i a b Ha Hb.
  destruct (decide (S i < length (l ++ [e1]))) as [Hlt|Hge].
  - rewrite lookup_app_l in Ha by lia. rewrite lookup_app_l in Hb by lia.
    by eapply H.
  - rewrite length_app in Hge. simpl in Hge.
    assert (i = length l) as ->.
    { apply lookup_lt_Some in Hb. rewrite !length_app in Hb. simpl in Hb. lia. }
    rewrite <-app_assoc in Ha.
    change ((l ++ e1 :: [e2]) !! length l = Some a) in Ha.
    rewrite list_lookup_middle in Ha by done.
    replace (S (length l)) with (length (l ++ [e1])) in Hb
      by (rewrite length_app; simpl; lia).
    rewrite list_lookup_middle in Hb by done. by simplify_eq.
Qed.

Lemma coalesce_fold_alternates rest : ∀ coalesced current,
  no_adjacent_same_op (coalesced ++ [current]) →
  no_adjacent_same_op
    ((foldl coalesce_step (coalesced, current) rest).1 ++
     [(foldl coalesce_step (coalesced, current) rest).2]).
Proof.
  induction rest as [|e rest IH]; intros coalesced current H; cbn [foldl].
  - done.
  - unfold coalesce_step at 2 4.
    destruct (decide (op e = op current)) as [Heq|Hne].
    + apply IH. eapply no_adjacent_same_op_ext; [|exact H].
      by rewrite !map_app.
    + apply IH. apply no_adjacent_same_op_snoc; [done|]. simpl. congruence.
Qed.

(** C7: the groups of [coalesce_edits] are the groups of consecutive runs
    of the script, each with the operation and both positions of the first
    edit of its run and the tokens of the whole run, and neighbouring
    groups differ in operation; taking one more edit of the same operation
    into the running group adds its tokens and leaves both positions as
    they were. *)
Theorem coalesce_edits_keeps_first_positions :
  (∀ edits : list Edit, ∃ runs : list (list Edit),
     concat runs = edits ∧
     Forall2 is_group_of runs (coalesce_edits edits) ∧
     no_adjacent_same_op (coalesce_edits edits)) ∧
  (∀ (coalesced : list Edit) (current edit : Edit),
     op edit = op current →
     ∃ current', coalesce_step (coalesced, current) edit = (coalesced, current') ∧
       tokens current' = tokens current ++ tokens edit ∧
       pos1 current' = pos1 current ∧ pos2 current' = pos2 current).
Proof.
  split.
  - intros [|e0 rest].
    + exists []. repeat split; [constructor | apply no_adjacent_same_op_nil].
    + unfold coalesce_edits.
      pose proof (coalesce_fold_alternates rest []
        (mkEdit (op e0) (tokens e0) (pos1 e0) (pos2 e0))
        (no_adjacent_same_op_singleton _)) as Halt.
      destruct (coalesce_fold_runs rest [] _ _ (is_group_of_copy e0))
        as (runs & groups & run' & current' & Hf & Hg & Hc & Hcat).
      rewrite Hf in Halt |- *. simpl in *.
      exists (runs ++ [run']). split; [|split].
      * rewrite concat_app. simpl. by rewrite app_nil_r.
      * apply Forall2_app; [done|]. by repeat constructor.
      * done.
  - intros coalesced current edit Hop. unfold coalesce_step.
    rewrite decide_True by done. eexists; split; [reflexivity|]. done.
Qed.

(** A script of two deletions and an insertion gives two groups; the
    deletion at position 5 joins the running group that started at 4. *)
Lemma coalesce_edits_keeps_first_positions_witness :
  (∃ runs : list (list Edit),
     concat runs = [mkEdit DELETE [py "a"] (Some 4) None;
                    mkEdit DELETE [py "b"] (Some 5) None;
                    mkEdit INSERT [py "c"] None (Some 4)] ∧
     Forall2 is_group_of runs
       [mkEdit DELETE [py "a"; py "b"] (Some 4) None;
        mkEdit INSERT [py "c"] None (Some 4)] ∧
     no_adjacent_same_op
       [mkEdit DELETE [py "a"; py "b"] (Some 4) None;
        mkEdit INSERT [py "c"] None (Some 4)]) ∧
  ∃ current',
    coalesce_step ([], mkEdit DELETE [py "a"] (Some 4) None)
      (mkEdit DELETE [py "b"] (Some 5) None) = ([], current') ∧
    tokens current' = [py "a"] ++ [py "b"] ∧
    pos1 current' = Some 4 ∧ pos2 current' = None.
Proof.
  split.
  - apply (proj1 coalesce_edits_keeps_first_positions
             [mkEdit DELETE [py "a"] (Some 4) None;
              mkEdit DELETE [py "b"] (Some 5) None;
              mkEdit INSERT [py "c"] None (Some 4)]).
  - apply (proj2 coalesce_edits_keeps_first_positions). reflexivity.
Defined.

(** ** Longest common subsequences *)

Lemma lcs_length_cons a b l1 l2 :
  lcs_length (a :: l1) (b :: l2) =
  if decide (a = b) then S (lcs_length l1 l2)
  else lcs_length l1 (b :: l2) `max` lcs_length (a :: l1) l2.
Proof. reflexivity. Qed.

Lemma lcs_length_nil_r l : lcs_length l [] = 0.
Proof. by destruct l. Qed.

Lemma lcs_length_attained l1 : ∀ l2,
  ∃ s, common_subsequence s l1 l2 ∧ length s = lcs_length l1 l2.
Proof.
  unfold common_subsequence.
  induction l1 as [|a l1 IH1]; intros l2.
  { exists []. auto using sublist_nil_l. }
  induction l2 as [|b l2 IH2].
  { exists []. auto using sublist_nil_l. }
  rewrite lcs_length_cons. destruct (decide (a = b)) as [<-|Hne].
  - destruct (IH1 l2) as (s & [H1 H2] & Hlen).
    exists (a :: s). repeat split; [by constructor..|]. simpl. by rewrite Hlen.
  - destruct (Nat.max_spec (lcs_length l1 (b :: l2)) (lcs_length (a :: l1) l2))
      as [[_ ->]|[_ ->]].
    + destruct IH2 as (s & [H1 H2] & Hlen).
      exists s. repeat split; [done | by constructor | done].
    + destruct (IH1 (b :: l2)) as (s & [H1 H2] & Hlen).
      exists s. repeat split; [by constructor | done | done].
Qed.

Lemma lcs_length_bound l1 : ∀ l2 s,
  common_subsequence s l1 l2 → length s ≤ lcs_length l1 l2.
Proof.
  unfold common_subsequence.
  induction l1 as [|a l1 IH1]; intros l2 s [H1 H2].
  { apply sublist_nil_r in H1 as ->. simpl. lia. }
  revert s H1 H2. induction l2 as [|b l2 IH2]; intros s H1 H2.
  { apply sublist_nil_r in H2 as ->. simpl. lia. }
  rewrite lcs_length_cons.
  apply sublist_cons_r in H1 as [H1|(s1 & -> & H1)];
    [|apply sublist_cons_r in H2 as [H2|(s2 & Hs & H2)]].
  - (* [s] does not use [a] *)
    pose proof (IH1 (b :: l2) s (conj H1 H2)) as Hup.
    destruct (decide (a = b)) as [<-|Hne]; [|lia].
    apply sublist_cons_r in H2 as [H2|(s2 & -> & H2)].
    + pose proof (IH1 l2 s (conj H1 H2)). lia.
    + assert (s2 `sublist_of` l1) as Hs2
        by (etrans; [|exact H1]; by constructor).
      pose proof (IH1 l2 s2 (conj Hs2 H2)). simpl. lia.
  - (* [s] uses [a] and not [b] *)
    pose proof (IH2 (a :: s1) (sublist_skip _ _ _ H1) H2) as Hleft.
    destruct (decide (a = b)) as [<-|Hne]; [|lia].
    assert (s1 `sublist_of` l2) as Hs1
      by (etrans; [|exact H2]; by constructor).
    pose proof (IH1 l2 s1 (conj H1 Hs1)). simpl. lia.
  - (* [s] uses both: they are the same token *)
    simplify_eq. rewrite decide_True by done.
    pose proof (IH1 l2 s2 (conj H1 H2)). simpl. lia.
Qed.

Lemma sublist_reverse (s l : list str) :
  s `sublist_of` l → reverse s `sublist_of` reverse l.
Proof.
  induction 1 as [|x s l _ IH|x s l _ IH].
  - done.
  - rewrite !reverse_cons. by apply sublist_app.
  - rewrite reverse_cons. by apply sublist_inserts_r.
Qed.

(** [lcs_prefix] is the length of a longest common subsequence of the two
    prefixes. *)
Lemma lcs_prefix_optimal seq1 seq2 i j :
  (∃ s, common_subsequence s (take i seq1) (take j seq2) ∧
        length s = lcs_prefix seq1 seq2 i j) ∧
  (∀ s, common_subsequence s (take i seq1) (take j seq2) →
        length s ≤ lcs_prefix seq1 seq2 i j).
Proof.
  unfold lcs_prefix. split.
  - destruct (lcs_length_attained (reverse (take i seq1)) (reverse (take j seq2)))
      as (s & [H1 H2] & Hlen).
    exists (reverse s). split; [split|].
    + apply sublist_reverse in H1. by rewrite reverse_involutive in H1.
    + apply sublist_reverse in H2. by rewrite reverse_involutive in H2.
    + by rewrite length_reverse.
  - intros s [H1 H2]. rewrite <-(length_reverse s).
    apply lcs_length_bound. split; by apply sublist_reverse.
Qed.

Lemma lcs_prefix_0_l seq1 seq2 j : lcs_prefix seq1 seq2 0 j = 0.
Proof. reflexivity. Qed.

Lemma lcs_prefix_0_r seq1 seq2 i : lcs_prefix seq1 seq2 i 0 = 0.
Proof. unfold lcs_prefix. rewrite take_0. apply lcs_length_nil_r. Qed.

Lemma lcs_prefix_S seq1 seq2 i j a b :
  seq1 !! i = Some a → seq2 !! j = Some b →
  lcs_prefix seq1 seq2 (S i) (S j) =
  if decide (a = b) then S (lcs_prefix seq1 seq2 i j)
  else lcs_prefix seq1 seq2 i (S j) `max` lcs_prefix seq1 seq2 (S i) j.
Proof.
  intros Ha Hb. unfold lcs_prefix.
  rewrite (take_S_r seq1 i a Ha), (take_S_r seq2 j b Hb), !reverse_snoc.
  apply lcs_length_cons.
Qed.

(** ** The matrix builder *)

Lemma subscript_Ok {A} (l : list A) i x :
  subscript l i = Ok x ↔ l !! i = Some x.
Proof. unfold subscript. destruct (l !! i); split; congruence. Qed.

Lemma subscript_lt {A} (l : list A) i :
  i < length l → ∃ x, subscript l i = Ok x ∧ l !! i = Some x.
Proof.
  intros Hi. destruct (lookup_lt_is_Some_2 l i Hi) as [x Hx].
  exists x. by rewrite subscript_Ok.
Qed.

Lemma get2_Ok matrix i j v :
  get2 matrix i j = Ok v ↔ ∃ row, matrix !! i = Some row ∧ row !! j = Some v.
Proof.
  unfold get2, subscript. destruct (matrix !! i) as [row|]; simpl.
  - destruct (row !! j) as [x|] eqn:E; split.
    + intros [= ->]. by exists row.
    + intros (? & [= <-] & ?). congruence.
    + done.
    + intros (? & [= <-] & ?). congruence.
  - split; [done|]. by intros (? & ? & ?).
Qed.

Lemma set2_Ok m n matrix i j v :
  well_shaped m n matrix → i ≤ m → j ≤ n →
  ∃ matrix', set2 matrix i j v = Ok matrix' ∧
    well_shaped m n matrix' ∧
    get2 matrix' i j = Ok v ∧
    ∀ i' j', (i', j') ≠ (i, j) → get2 matrix' i' j' = get2 matrix i' j'.
Proof.
  intros [Hlen Hrows] Hi Hj. unfold set2.
  destruct (subscript_lt matrix i) as (row & -> & Hrow); [lia|]. simpl.
  pose proof (Hrows _ _ Hrow) as Hrl.
  rewrite decide_True by lia. eexists; split; [reflexivity|].
  split; [|split].
  - split; [by rewrite length_insert|].
    intros r row' Hr. destruct (decide (r = i)) as [->|Hne].
    + rewrite list_lookup_insert_eq in Hr by lia. simplify_eq.
      by rewrite length_insert.
    + rewrite list_lookup_insert_ne in Hr by done. eauto.
  - apply get2_Ok. exists (<[j:=v]> row). split.
    + apply list_lookup_insert_eq. lia.
    + apply list_lookup_insert_eq. lia.
  - intros i' j' Hne. unfold get2, subscript.
    destruct (decide (i' = i)) as [->|Hi'].
    + rewrite list_lookup_insert_eq by lia. rewrite Hrow. simpl.
      rewrite list_lookup_insert_ne by congruence. done.
    + rewrite list_lookup_insert_ne by done. done.
Qed.

Lemma fill_cell_invariant seq1 seq2 i j matrix :
  1 ≤ i ≤ length seq1 → 1 ≤ j ≤ length seq2 →
  filled_upto seq1 seq2 i j matrix →
  ∃ matrix', fill_cell seq1 seq2 i j matrix = Ok matrix' ∧
    filled_upto seq1 seq2 i (S j) matrix'.
Proof.
  intros Hi Hj [Hshape Hcells]. unfold fill_cell.
  destruct (subscript_lt seq1 (i - 1)) as (a & -> & Ha); [lia|].
  destruct (subscript_lt seq2 (j - 1)) as (b & -> & Hb); [lia|]. simpl.
  assert (lcs_prefix seq1 seq2 i j =
          if decide (a = b) then S (lcs_prefix seq1 seq2 (i - 1) (j - 1))
          else lcs_prefix seq1 seq2 (i - 1) j `max` lcs_prefix seq1 seq2 i (j - 1))
    as Hrec.
  { pose proof (lcs_prefix_S seq1 seq2 (i - 1) (j - 1) a b Ha Hb) as H.
    by replace (S (i - 1)) with i in H by lia;
       replace (S (j - 1)) with j in H by lia. }
  assert (∃ v, (if decide (a = b)
                then d ← get2 matrix (i - 1) (j - 1); set2 matrix i j (d + 1)
                else u ← get2 matrix (i - 1) j;
                     l ← get2 matrix i (j - 1); set2 matrix i j (u `max` l))
               = set2 matrix i j v ∧ v = lcs_prefix seq1 seq2 i j)
    as (v & -> & ->).
  { rewrite Hrec. destruct (decide (a = b)).
    - rewrite (Hcells (i - 1) (j - 1)) by (unfold cell_done; lia). simpl.
      eexists; split; [reflexivity|lia].
    - rewrite (Hcells (i - 1) j) by (unfold cell_done; lia).
      rewrite (Hcells i (j - 1)) by (unfold cell_done; lia). simpl.
      eexists; split; reflexivity. }
  destruct (set2_Ok _ _ matrix i j (lcs_prefix seq1 seq2 i j) Hshape)
    as (matrix' & -> & Hshape' & Hnew & Hold); [lia..|].
  exists matrix'. split; [done|]. split; [done|].
  intros i' j' Hi' Hj' Hdone.
  destruct (decide ((i', j') = (i, j))) as [Heq|Hne].
  - by simplify_eq.
  - rewrite Hold by done. apply Hcells; [done..|].
    unfold cell_done in *.
    destruct (decide (i' = i)), (decide (j' = j)); try lia. congruence.
Qed.

Lemma fill_row_invariant seq1 seq2 i : ∀ k j matrix,
  1 ≤ i ≤ length seq1 → 1 ≤ j → j + k = S (length seq2) →
  filled_upto seq1 seq2 i j matrix →
  ∃ matrix', for_each (range j k) (fill_cell seq1 seq2 i) matrix = Ok matrix' ∧
    filled_upto seq1 seq2 i (S (length seq2)) matrix'.
Proof.
  induction k as [|k IH]; intros j matrix Hi Hj Hk Hinv; simpl.
  - exists matrix. split; [done|]. by replace (S (length seq2)) with j by lia.
  - destruct (fill_cell_invariant seq1 seq2 i j matrix)
      as (matrix1 & -> & Hinv1); [lia..|done|]. simpl.
    apply IH; [done|lia|lia|done].
Qed.

Lemma next_row_invariant seq1 seq2 i matrix :
  filled_upto seq1 seq2 i (S (length seq2)) matrix →
  filled_upto seq1 seq2 (S i) 1 matrix.
Proof.
  intros [Hshape Hcells]. split; [done|].
  intros i' j' Hi' Hj' Hdone. apply Hcells; [done..|].
  unfold cell_done in *. lia.
Qed.

Lemma fill_rows_invariant seq1 seq2 : ∀ k i matrix,
  1 ≤ i → i + k = S (length seq1) →
  filled_upto seq1 seq2 i 1 matrix →
  ∃ matrix',
    for_each (range i k)
      (λ i matrix, for_each (range 1 (length seq2)) (fill_cell seq1 seq2 i) matrix)
      matrix = Ok matrix' ∧
    filled_upto seq1 seq2 (S (length seq1)) 1 matrix'.
Proof.
  induction k as [|k IH]; intros i matrix Hi Hk Hinv; simpl.
  - exists matrix. split; [done|]. by replace (S (length seq1)) with i by lia.
  - destruct (fill_row_invariant seq1 seq2 i (length seq2) 1 matrix)
      as (matrix1 & -> & Hinv1); [lia..|done|]. simpl.
    apply IH; [lia|lia|]. by apply next_row_invariant.
Qed.

Lemma initial_matrix_invariant seq1 seq2 :
  filled_upto seq1 seq2 1 1
    (replicate (length seq1 + 1) (replicate (length seq2 + 1) 0)).
Proof.
  split.
  - split; [rewrite length_replicate; lia|].
    intros r row [-> _]%lookup_replicate. rewrite length_replicate. lia.
  - intros i' j' Hi' Hj' Hdone. apply get2_Ok.
    exists (replicate (length seq2 + 1) 0). split.
    + apply lookup_replicate_2. lia.
    + assert (lcs_prefix seq1 seq2 i' j' = 0) as ->.
      { unfold cell_done in Hdone.
        destruct (decide (i' = 0)) as [->|]; [apply lcs_prefix_0_l|].
        assert (j' = 0) as -> by lia. apply lcs_prefix_0_r. }
      apply lookup_replicate_2. lia.
Qed.

(** The builder returns a matrix, of [m + 1] rows of [n + 1] entries, whose
    entry [(i, j)] is the longest-common-subsequence length of the first
    [i] tokens of [seq1] and the first [j] tokens of [seq2]. *)
Lemma compute_lcs_matrix_cells seq1 seq2 :
  ∃ matrix, compute_lcs_matrix seq1 seq2 = Ok matrix ∧
    well_shaped (length seq1) (length seq2) matrix ∧
    ∀ i j, i ≤ length seq1 → j ≤ length seq2 →
      get2 matrix i j = Ok (lcs_prefix seq1 seq2 i j).
Proof.
  unfold compute_lcs_matrix.
  destruct (fill_rows_invariant seq1 seq2 (length seq1) 1 _
              (le_n 1) eq_refl (initial_matrix_invariant seq1 seq2))
    as (matrix & Hrun & Hshape & Hcells).
  exists matrix. split; [done|]. split; [done|].
  intros i j Hi Hj. apply Hcells; [done..|]. unfold cell_done. lia.
Qed.

(** C1: the bottom-right entry of the matrix of [compute_lcs_matrix] is the
    length of a common subsequence of the two sequences, and no common
    subsequence is longer. *)
Theorem compute_lcs_matrix_optimal (A B : list str) :
  ∃ (matrix : Matrix) (k : nat),
    compute_lcs_matrix A B = Ok matrix ∧
    get2 matrix (length A) (length B) = Ok k ∧
    (∃ s, common_subsequence s A B ∧ length s = k) ∧
    (∀ s, common_subsequence s A B → length s ≤ k).
Proof.
  destruct (compute_lcs_matrix_cells A B) as (matrix & Hrun & _ & Hcells).
  exists matrix, (lcs_prefix A B (length A) (length B)).
  split; [done|]. split; [by apply Hcells|].
  pose proof (lcs_prefix_optimal A B (length A) (length B)) as H.
  by rewrite !firstn_all in H.
Qed.

(** ** The backtracker *)

(** Run the binds of the [result] monad on the values known so far. *)
Ltac rsimpl :=
  cbn [mbind mret result_mbind result_mret result_bind andb orb negb].

Lemma sequence1_of_cons e script :
  sequence1_of (e :: script) =
  (if decide (op e = EQUAL ∨ op e = DELETE) then tokens e else []) ++
  sequence1_of script.
Proof.
  unfold sequence1_of. rewrite filter_cons.
  by destruct (decide (op e = EQUAL ∨ op e = DELETE)).
Qed.

Lemma sequence2_of_cons e script :
  sequence2_of (e :: script) =
  (if decide (op e = EQUAL ∨ op e = INSERT) then tokens e else []) ++
  sequence2_of script.
Proof.
  unfold sequence2_of. rewrite filter_cons.
  by destruct (decide (op e = EQUAL ∨ op e = INSERT)).
Qed.

Lemma drop_pred {A} (l : list A) i x :
  0 < i → l !! (i - 1) = Some x → drop (i - 1) l = x :: drop i l.
Proof.
  intros Hi Hx. rewrite (drop_S l x (i - 1) Hx). f_equal. f_equal. lia.
Qed.

(** A loop whose body keeps [P] and lowers [i + j] ends, with [P] and
    [i = j = 0], whenever the budget covers [i + j]. *)
Lemma backtrack_loop_invariant (P : BtState → Prop) matrix seq1 seq2 :
  (∀ st, P st → 0 < bt_i st ∨ 0 < bt_j st →
     ∃ st', backtrack_step matrix seq1 seq2 st = Ok st' ∧ P st' ∧
            bt_i st' + bt_j st' < bt_i st + bt_j st) →
  ∀ fuel st, P st → bt_i st + bt_j st ≤ fuel →
    ∃ st', backtrack_loop fuel matrix seq1 seq2 st = Ok st' ∧ P st' ∧
           bt_i st' = 0 ∧ bt_j st' = 0.
Proof.
  intros Hstep. induction fuel as [|fuel IH]; intros st HP Hfuel.
  - exists st. simpl.
    rewrite !bool_decide_eq_false_2 by lia. simpl. repeat split; [done|lia..].
  - simpl. destruct (bool_decide (0 < bt_i st) || bool_decide (0 < bt_j st))
      eqn:Hcond.
    + apply orb_prop in Hcond.
      destruct (Hstep st HP) as (st1 & -> & HP1 & Hlt).
      { destruct Hcond as [H|H]; apply bool_decide_eq_true in H; auto. }
      simpl. apply IH; [done|lia].
    + apply orb_false_elim in Hcond as [H1 H2].
      apply bool_decide_eq_false in H1, H2.
      exists st. repeat split; [done|lia..].
Qed.

(** What one iteration does, by the branch it takes. *)
Lemma backtrack_step_cases matrix seq1 seq2 i j edits :
  well_shaped (length seq1) (length seq2) matrix →
  i ≤ length seq1 → j ≤ length seq2 → 0 < i ∨ 0 < j →
  ∃ st', backtrack_step matrix seq1 seq2 (mkBt i j edits) = Ok st' ∧
    ((∃ t, 0 < i ∧ 0 < j ∧
           seq1 !! (i - 1) = Some t ∧ seq2 !! (j - 1) = Some t ∧
           st' = mkBt (i - 1) (j - 1)
                   (edits ++ [mkEdit EQUAL [t] (Some (i - 1)) (Some (j - 1))])) ∨
     (∃ t, 0 < j ∧ seq2 !! (j - 1) = Some t ∧
           (0 < i → seq1 !! (i - 1) ≠ Some t) ∧
           st' = mkBt i (j - 1)
                   (edits ++ [mkEdit INSERT [t] None (Some (j - 1))])) ∨
     (∃ t, 0 < i ∧ seq1 !! (i - 1) = Some t ∧
           (0 < j → seq2 !! (j - 1) ≠ Some t) ∧
           st' = mkBt (i - 1) j
                   (edits ++ [mkEdit DELETE [t] (Some (i - 1)) None]))).
Proof.
  intros [Hlen Hrows] Hi Hj Hpos.
  unfold backtrack_step, bt_is_match, bt_is_insert. cbn [bt_i bt_j bt_edits].
  destruct (decide (0 < i)) as [Hi0|Hi0]; destruct (decide (0 < j)) as [Hj0|Hj0];
    try lia.
  - (* both positive *)
    rewrite !bool_decide_eq_true_2 by done.
    rewrite (bool_decide_eq_false_2 (i = 0)) by lia.
    destruct (subscript_lt seq1 (i - 1)) as (a & Ea & Ha); [lia|].
    destruct (subscript_lt seq2 (j - 1)) as (b & Eb & Hb); [lia|].
    rewrite Ea, Eb. rsimpl.
    case_bool_decide as Hab.
    { eexists; split; [done|].
      left. exists a. by subst b. }
    assert (∃ l, get2 matrix i (j - 1) = Ok l) as [l ->].
    { destruct (subscript_lt matrix i) as (row & _ & Hrow); [lia|].
      destruct (subscript_lt row (j - 1)) as (l & _ & Hl).
      { rewrite (Hrows _ _ Hrow). lia. }
      exists l. apply get2_Ok. eauto. }
    assert (∃ u, get2 matrix (i - 1) j = Ok u) as [u ->].
    { destruct (subscript_lt matrix (i - 1)) as (row & _ & Hrow); [lia|].
      destruct (subscript_lt row j) as (u & _ & Hu).
      { rewrite (Hrows _ _ Hrow). lia. }
      exists u. apply get2_Ok. eauto. }
    rsimpl. case_bool_decide.
    + eexists; split; [done|].
      right; left. exists b. repeat split; [done..|congruence].
    + eexists; split; [done|].
      right; right. exists a. repeat split; [done..|congruence].
  - (* [j = 0] *)
    rewrite (bool_decide_eq_true_2 (0 < i)) by done.
    rewrite (bool_decide_eq_false_2 (0 < j)) by done. rsimpl.
    destruct (subscript_lt seq1 (i - 1)) as (a & Ea & Ha); [lia|].
    rewrite Ea. rsimpl. eexists; split; [done|].
    right; right. exists a. repeat split; [done..|lia].
  - (* [i = 0] *)
    rewrite (bool_decide_eq_false_2 (0 < i)) by done.
    rewrite (bool_decide_eq_true_2 (0 < j)) by done.
    rewrite bool_decide_eq_true_2 by lia. rsimpl.
    destruct (subscript_lt seq2 (j - 1)) as (b & Eb & Hb); [lia|].
    rewrite Eb. rsimpl. eexists; split; [done|].
    right; left. exists b. repeat split; [done..|lia].
Qed.

Lemma backtrack_step_invariant matrix seq1 seq2 st :
  well_shaped (length seq1) (length seq2) matrix →
  bt_invariant seq1 seq2 st → 0 < bt_i st ∨ 0 < bt_j st →
  ∃ st', backtrack_step matrix seq1 seq2 st = Ok st' ∧
         bt_invariant seq1 seq2 st' ∧
         bt_i st' + bt_j st' < bt_i st + bt_j st.
Proof.
  intros Hshape (Hi & Hj & H1 & H2) Hpos. destruct st as [i j edits].
  simpl in *.
  destruct (backtrack_step_cases matrix seq1 seq2 i j edits Hshape Hi Hj Hpos)
    as (st' & -> &
        [(t & Hi0 & Hj0 & Ha & Hb & ->)|[(t & Hj0 & Hb & _ & ->)|(t & Hi0 & Ha & _ & ->)]]);
    eexists; (split; [reflexivity|]); (split; [|simpl; lia]);
    unfold bt_invariant; simpl; rewrite reverse_snoc;
    rewrite sequence1_of_cons, sequence2_of_cons; simpl;
    repeat split; try lia.
  - by rewrite H1, (drop_pred seq1 i t).
  - by rewrite H2, (drop_pred seq2 j t).
  - done.
  - by rewrite H2, (drop_pred seq2 j t).
  - by rewrite H1, (drop_pred seq1 i t).
  - done.
Qed.

Lemma backtrack_loop_more_fuel matrix seq1 seq2 : ∀ fuel extra st st',
  backtrack_loop fuel matrix seq1 seq2 st = Ok st' →
  backtrack_loop (fuel + extra) matrix seq1 seq2 st = Ok st'.
Proof.
  induction fuel as [|fuel IH]; intros extra st st'; simpl.
  - destruct (bool_decide (0 < bt_i st) || bool_decide (0 < bt_j st)) eqn:Hc;
      [done|].
    intros [= <-]. destruct extra; simpl; by rewrite Hc.
  - destruct (bool_decide (0 < bt_i st) || bool_decide (0 < bt_j st));
      [|done].
    destruct (backtrack_step matrix seq1 seq2 st) as [st1| |]; [|done..].
    rsimpl. apply IH.
Qed.

Lemma backtrack_lcs_more_fuel matrix seq1 seq2 fuel extra script :
  backtrack_lcs fuel matrix seq1 seq2 = Ok script →
  backtrack_lcs (fuel + extra) matrix seq1 seq2 = Ok script.
Proof.
  unfold backtrack_lcs.
  destruct (backtrack_loop fuel _ _ _ _) as [st| |] eqn:Hrun; [|done..].
  by rewrite (backtrack_loop_more_fuel _ _ _ _ extra _ _ Hrun).
Qed.

Lemma bt_invariant_start seq1 seq2 :
  bt_invariant seq1 seq2 (mkBt (length seq1) (length seq2) []).
Proof.
  unfold bt_invariant. simpl. by rewrite !drop_all.
Qed.

(** With a matrix of the right shape the backtracker returns a script that
    rebuilds both sequences. *)
Lemma backtrack_lcs_rebuilds matrix seq1 seq2 :
  well_shaped (length seq1) (length seq2) matrix →
  ∃ script,
    backtrack_lcs (length seq1 + length seq2) matrix seq1 seq2 = Ok script ∧
    sequence1_of script = seq1 ∧ sequence2_of script = seq2.
Proof.
  intros Hshape.
  destruct (backtrack_loop_invariant (bt_invariant seq1 seq2) matrix seq1 seq2)
    with (fuel := length seq1 + length seq2)
         (st := mkBt (length seq1) (length seq2) [])
    as (st' & Hrun & (_ & _ & H1 & H2) & Hi & Hj).
  - intros st. by apply backtrack_step_invariant.
  - apply bt_invariant_start.
  - done.
  - exists (reverse (bt_edits st')). unfold backtrack_lcs. rewrite Hrun.
    rewrite Hi in H1. rewrite Hj in H2. done.
Qed.

(** C2: the raw script of [backtrack_lcs] on the matrix of
    [compute_lcs_matrix] exists (any budget of at least [|A| + |B|]
    iterations gives it), its [EQUAL] and [DELETE] tokens in order are [A]
    and its [EQUAL] and [INSERT] tokens in order are [B]. *)
Theorem backtrack_lcs_reconstructs (A B : list str) :
  ∃ (matrix : Matrix) (script : list Edit),
    compute_lcs_matrix A B = Ok matrix ∧
    (∀ extra, backtrack_lcs (length A + length B + extra) matrix A B = Ok script) ∧
    sequence1_of script = A ∧
    sequence2_of script = B.
Proof.
  destruct (compute_lcs_matrix_cells A B) as (matrix & Hrun & Hshape & _).
  destruct (backtrack_lcs_rebuilds matrix A B Hshape) as (script & Hbt & H1 & H2).
  exists matrix, script. repeat split; [done| |done|done].
  intros extra. by apply backtrack_lcs_more_fuel.
Qed.

(** C3: at a position [(i, j)] with both indices positive, different tokens
    [seq1[i-1]] and [seq2[j-1]], and equal entries [matrix[i][j-1]] and
    [matrix[i-1][j]], the loop body appends an [INSERT] of [seq2[j-1]] with
    position [j - 1] and lowers [j], leaving [i] as it is. *)
Theorem backtrack_tie_prefers_insert (matrix : Matrix) (seq1 seq2 : list str)
    (i j : nat) (edits : list Edit) (t1 t2 : str) (v : nat) :
  0 < i → 0 < j →
  seq1 !! (i - 1) = Some t1 → seq2 !! (j - 1) = Some t2 → t1 ≠ t2 →
  get2 matrix i (j - 1) = Ok v → get2 matrix (i - 1) j = Ok v →
  backtrack_step matrix seq1 seq2 (mkBt i j edits) =
  Ok (mkBt i (j - 1) (edits ++ [mkEdit INSERT [t2] None (Some (j - 1))])).
Proof.
  intros Hi Hj H1 H2 Hne Hl Hu.
  unfold backtrack_step, bt_is_match, bt_is_insert. cbn [bt_i bt_j bt_edits].
  apply subscript_Ok in H1, H2.
  rewrite !bool_decide_eq_true_2 by done.
  rewrite (bool_decide_eq_false_2 (i = 0)) by lia.
  rewrite H1, H2, Hl, Hu. rsimpl.
  rewrite (bool_decide_eq_false_2 (t1 = t2)) by done.
  by rewrite (bool_decide_eq_true_2 (v ≤ v)) by lia.
Qed.

(** The tie of [["a"; "b"]] against [["b"; "a"]] at the bottom-right cell. *)
Lemma backtrack_tie_prefers_insert_witness :
  compute_lcs_matrix [py "a"; py "b"] [py "b"; py "a"] =
    Ok [[0; 0; 0]; [0; 0; 1]; [0; 1; 1]] ∧
  backtrack_step [[0; 0; 0]; [0; 0; 1]; [0; 1; 1]]
    [py "a"; py "b"] [py "b"; py "a"] (mkBt 2 2 []) =
  Ok (mkBt 2 1 [mkEdit INSERT [py "a"] None (Some 1)]).
Proof.
  split; [reflexivity|].
  apply (backtrack_tie_prefers_insert _ _ _ 2 2 [] (py "b") (py "a") 1);
    [lia | lia | reflexivity | reflexivity | discriminate
    | reflexivity | reflexivity].
Defined.

(** *** Identical sequences *)

Lemma backtrack_step_identical matrix seq st :
  well_shaped (length seq) (length seq) matrix →
  bt_invariant seq seq st ∧ bt_i st = bt_j st ∧
    Forall (λ e, op e = EQUAL) (bt_edits st) →
  0 < bt_i st ∨ 0 < bt_j st →
  ∃ st', backtrack_step matrix seq seq st = Ok st' ∧
    (bt_invariant seq seq st' ∧ bt_i st' = bt_j st' ∧
       Forall (λ e, op e = EQUAL) (bt_edits st')) ∧
    bt_i st' + bt_j st' < bt_i st + bt_j st.
Proof.
  intros Hshape (Hinv & Hij & Hall) Hpos.
  destruct (backtrack_step_invariant matrix seq seq st Hshape Hinv Hpos)
    as (st' & Hstep & Hinv' & Hlt).
  exists st'. split; [done|]. split; [|done]. split; [done|].
  destruct st as [i j edits]. simpl in *. subst j.
  destruct Hinv as (Hi & _).
  destruct (backtrack_step_cases matrix seq seq i i edits Hshape Hi Hi Hpos)
    as (st1 & Hstep1 &
        [(t & _ & _ & _ & _ & ->)|[(t & Hj0 & Hb & Hne & _)|(t & Hi0 & Ha & Hne & _)]]).
  - rewrite Hstep in Hstep1. injection Hstep1 as ->. simpl.
    split; [done|]. apply Forall_app. split; [done|]. by repeat constructor.
  - by destruct (Hne Hj0).
  - by destruct (Hne Hi0).
Qed.

Lemma op_changes_all_equal o script :
  Forall (λ e, op e = o) script → op_changes o script = 0.
Proof.
  induction 1 as [|e script He _ IH]; simpl; [done|].
  rewrite He, decide_True by done. by rewrite IH.
Qed.

(** C6, as the code has it: for identical sequences the raw script exists
    and holds [EQUAL] edits only; coalescing it gives exactly one group
    when the sequences are not empty, and no group when they are. *)
Theorem identical_sequences_all_equal (A : list str) :
  ∃ (matrix : Matrix) (script : list Edit),
    compute_lcs_matrix A A = Ok matrix ∧
    (∀ extra, backtrack_lcs (length A + length A + extra) matrix A A = Ok script) ∧
    Forall (λ e, op e = EQUAL) script ∧
    length (coalesce_edits script) = (if decide (A = []) then 0 else 1).
Proof.
  destruct (compute_lcs_matrix_cells A A) as (matrix & Hrun & Hshape & _).
  destruct (backtrack_loop_invariant
              (λ st, bt_invariant A A st ∧ bt_i st = bt_j st ∧
                     Forall (λ e, op e = EQUAL) (bt_edits st)) matrix A A)
    with (fuel := length A + length A) (st := mkBt (length A) (length A) [])
    as (st' & Hloop & ((_ & _ & H1 & _) & _ & Hall) & Hi & _).
  - intros st. by apply backtrack_step_identical.
  - split; [apply bt_invariant_start|]. split; [done|constructor].
  - done.
  - exists matrix, (reverse (bt_edits st')).
    assert (backtrack_lcs (length A + length A) matrix A A =
            Ok (reverse (bt_edits st'))) as Hbt
      by (unfold backtrack_lcs; by rewrite Hloop).
    apply Forall_reverse in Hall. rewrite Hi, drop_0 in H1.
    split; [done|]. split; [intros extra; by apply backtrack_lcs_more_fuel|].
    split; [done|].
    destruct (reverse (bt_edits st')) as [|e0 rest] eqn:Hscript.
    + subst A. done.
    + rewrite coalesce_edits_length.
      apply Forall_cons in Hall as [He0 Hrest].
      rewrite He0, op_changes_all_equal by done.
      destruct (decide (A = [])) as [->|]; [|done].
      simpl in Hbt. discriminate.
Qed.

(** C6 fails for two empty sequences: the script is empty, and so is the
    coalesced result. *)
Lemma identical_empty_sequences_no_group :
  ¬ (∀ (A : list str) (matrix : Matrix) (script : list Edit),
       compute_lcs_matrix A A = Ok matrix →
       backtrack_lcs (length A + length A) matrix A A = Ok script →
       Forall (λ e, op e = EQUAL) script ∧
       length (coalesce_edits script) = 1).
Proof.
  intros H.
  destruct (H [] [[0]] [] eq_refl eq_refl) as [_ Hlen].
  discriminate Hlen.
Qed.

(** *** The scenarios of the specification *)

Example scenario_quick_slow :
  ∃ matrix,
    compute_lcs_matrix [py "the"; py "quick"; py "fox"]
                       [py "the"; py "slow"; py "fox"] = Ok matrix ∧
    backtrack_lcs 6 matrix [py "the"; py "quick"; py "fox"]
                           [py "the"; py "slow"; py "fox"] =
    Ok [mkEdit EQUAL [py "the"] (Some 0) (Some 0);
        mkEdit DELETE [py "quick"] (Some 1) None;
        mkEdit INSERT [py "slow"] None (Some 1);
        mkEdit EQUAL [py "fox"] (Some 2) (Some 2)].
Proof. eexists. split; reflexivity. Qed.

Example scenario_tie_break :
  ∃ matrix,
    compute_lcs_matrix [py "a"; py "b"] [py "b"; py "a"] = Ok matrix ∧
    backtrack_lcs 4 matrix [py "a"; py "b"] [py "b"; py "a"] =
    Ok [mkEdit DELETE [py "a"] (Some 0) None;
        mkEdit EQUAL [py "b"] (Some 1) (Some 0);
        mkEdit INSERT [py "a"] None (Some 1)].
Proof. eexists. split; reflexivity. Qed.

Example scenario_xyz :
  ∃ matrix script,
    compute_lcs_matrix [py "x"; py "y"; py "z"] [py "x"; py "z"] = Ok matrix ∧
    backtrack_lcs 5 matrix [py "x"; py "y"; py "z"] [py "x"; py "z"] = Ok script ∧
    map op script = [EQUAL; DELETE; EQUAL] ∧
    length (coalesce_edits script) = 3.
Proof. do 2 eexists. repeat split; reflexivity. Qed.

Example scenario_tokenize :
  tokenize_words (py "the  quick fox ") =
  [py "the"; py " "; py " "; py "quick"; py " "; py "fox"; py " "].
Proof. reflexivity. Qed.

(** ** Section markers *)

Lemma rmatch_Cat {A} r1 r2 s (k : str → option A) :
  rmatch (Cat r1 r2) s k = rmatch r1 s (λ s', rmatch r2 s' k).
Proof. reflexivity. Qed.

Lemma rmatch_Alt {A} r1 r2 s (k : str → option A) :
  rmatch (Alt r1 r2) s k =
  match rmatch r1 s k with Some x => Some x | None => rmatch r2 s k end.
Proof. reflexivity. Qed.

Lemma rmatch_Cls_cons {A} p c s (k : str → option A) :
  rmatch (Cls p) (c :: s) k = if p c then k s else None.
Proof. reflexivity. Qed.

Lemma rmatch_Star {A} r s (k : str → option A) :
  rmatch (Star r) s k = star_loop (rmatch r) k (length s) s.
Proof. reflexivity. Qed.

(** A greedy run over a character class takes all the leading characters
    of the class when the rest of the pattern then matches. *)
Lemma star_loop_cls_greedy {A} (p : char → bool) (k : str → option A) x s :
  (∀ c s', s = c :: s' → p c = false) → k s = Some x →
  ∀ ws n, Forall (λ c, p c = true) ws → length (ws ++ s) ≤ n →
    star_loop (rmatch (Cls p)) k n (ws ++ s) = Some x.
Proof.
  intros Hstop Hk. induction ws as [|c ws IH]; intros n Hws Hn.
  - destruct n as [|n]; simpl; [done|].
    destruct s as [|c s']; [done|]. by rewrite (Hstop c s' eq_refl).
  - destruct n as [|n]; simpl in Hn; [lia|].
    apply Forall_cons in Hws as [Hc Hws]. simpl. rewrite Hc.
    rewrite bool_decide_eq_true_2 by lia.
    rewrite IH; [done..|lia].
Qed.

(** A run in front of a continuation that always succeeds succeeds. *)
Lemma star_loop_cls_total {A} (p : char → bool) (k : str → option A) x :
  (∀ s, k s = Some x) →
  ∀ n s, star_loop (rmatch (Cls p)) k n s = Some x.
Proof.
  intros Hk. induction n as [|n IH]; intros s; simpl; [done|].
  destruct s as [|c s]; [done|].
  destruct (p c); [|done].
  rewrite bool_decide_eq_true_2 by (simpl; lia). by rewrite IH.
Qed.

Lemma re_numeric_no_digit {U : Unicode} {A} c s (k : str → option A) :
  isdecimal c = false → rmatch re_numeric (c :: s) k = None.
Proof.
  intros Hc. unfold re_numeric, Plus.
  by rewrite !rmatch_Cat, rmatch_Cls_cons, Hc.
Qed.

Lemma re_alpha_paren_letter {A} c s (k : str → option A) :
  is_ascii_letter c = true →
  rmatch re_alpha_paren (40 :: c :: 41 :: s)%N k = k s.
Proof.
  intros Hc. unfold re_alpha_paren.
  rewrite rmatch_Cat.
  change (rmatch (Lit "(") (40 :: c :: 41 :: s)%N ?k') with (k' (c :: 41 :: s)%N).
  cbv beta. rewrite rmatch_Cat, rmatch_Cls_cons, Hc. reflexivity.
Qed.

Lemma ws_plus_total {U : Unicode} {A} w s (x : A) :
  ws_class w = true →
  rmatch (Plus (Cls ws_class)) (w :: s) (λ _, Some x) = Some x.
Proof.
  intros Hw. unfold Plus.
  rewrite rmatch_Cat, rmatch_Cls_cons, Hw, rmatch_Star.
  by apply star_loop_cls_total.
Qed.

Lemma roman_letter_is_ascii_letter c :
  in_chars "ivxlcdmIVXLCDM" c = true → is_ascii_letter c = true.
Proof.
  intros H. apply bool_decide_eq_true in H. cbn in H.
  repeat (apply elem_of_cons in H as [->|H]; [reflexivity|]).
  by apply elem_of_nil in H.
Qed.

(** The pattern finds the marker ["(c)"] of a single letter. *)
Lemma SECTION_PATTERN_match_single_letter {U : Unicode} ws c w rest :
  isspace 40%N = false →
  isdecimal 40%N = false →
  Forall (λ x, ws_class x = true) ws →
  is_ascii_letter c = true →
  ws_class w = true →
  SECTION_PATTERN_match (ws ++ 40 :: c :: 41 :: w :: rest)%N =
  Some [40; c; 41]%N.
Proof.
  intros Hsp Hdec Hws Hc Hw. unfold SECTION_PATTERN_match.
  rewrite rmatch_Star. apply star_loop_cls_greedy; [| |done|done].
  - intros c' s' [= <- _]. unfold ws_class. by rewrite Hsp.
  - unfold re_marker.
    rewrite rmatch_Alt, re_numeric_no_digit by done.
    rewrite rmatch_Alt, re_alpha_paren_letter by done.
    rewrite ws_plus_total by done.
    cbn [length].
    by replace (S (S (S (S (length rest)))) - S (length rest)) with 3 by lia.
Qed.

(** C10: a paragraph whose marker is one parenthesised letter that is also
    a roman-numeral character is matched by the parenthetical-alpha form
    of the pattern and classified [(10, "alpha_paren")], not
    [(11, "roman_paren")]; a section that starts there therefore ends at
    the boundaries of an [alpha_paren] section of level 10.  (The
    parentheses are neither white space nor decimal digits in the
    runtime's tables.) *)
Theorem roman_letter_marker_is_alpha_paren {U : Unicode}
    (ws : str) (c w : char) (rest : str) :
  isspace 40%N = false → isspace 41%N = false → isdecimal 40%N = false →
  Forall (λ x, ws_class x = true) ws →
  in_chars "ivxlcdmIVXLCDM" c = true →
  ws_class w = true →
  let text := ws ++ py "(" ++ [c] ++ py ")" ++ [w] ++ rest in
  is_section_start text = true ∧
  get_section_level text = (10, "alpha_paren"%string) ∧
  get_section_level text ≠ (11, "roman_paren"%string) ∧
  ∀ later : str,
    is_section_boundary (get_section_level text).1 (get_section_level text).2
      later ↔
    is_section_boundary 10 "alpha_paren" later.
Proof.
  intros Hsp40 Hsp41 Hdec Hws Hc%roman_letter_is_ascii_letter Hw text.
  assert (SECTION_PATTERN_match text = Some [40; c; 41]%N) as Hm
    by by apply SECTION_PATTERN_match_single_letter.
  assert (get_section_level text = (10, "alpha_paren"%string)) as Hlevel.
  { unfold get_section_level. rewrite Hm.
    assert (strip [40; c; 41]%N = [40; c; 41]%N) as ->.
    { unfold strip, rstrip, lstrip. cbn [drop_while]. rewrite Hsp40.
      change (reverse [40; c; 41]%N) with [41; c; 40]%N.
      cbn [drop_while]. by rewrite Hsp41. }
    unfold re_match.
    rewrite rmatch_Cat, re_numeric_no_digit by done.
    rewrite rmatch_Cat, re_alpha_paren_letter by done.
    reflexivity. }
  split; [|split; [|split]].
  - unfold is_section_start. by rewrite Hm.
  - done.
  - rewrite Hlevel. discriminate.
  - intros later. by rewrite Hlevel.
Qed.

(** The marker ["(i)"] of the paragraph ["  (i) first item"]. *)
Lemma roman_letter_marker_is_alpha_paren_witness :
  is_section_start (U := ascii_unicode) (py "  (i) first item") = true ∧
  get_section_level (U := ascii_unicode) (py "  (i) first item") =
    (10, "alpha_paren"%string) ∧
  get_section_level (U := ascii_unicode) (py "  (i) first item") ≠
    (11, "roman_paren"%string) ∧
  ∀ later : str,
    is_section_boundary (U := ascii_unicode)
      (get_section_level (U := ascii_unicode) (py "  (i) first item")).1
      (get_section_level (U := ascii_unicode) (py "  (i) first item")).2
      later ↔
    is_section_boundary (U := ascii_unicode) 10 "alpha_paren" later.
Proof.
  apply (roman_letter_marker_is_alpha_paren (U := ascii_unicode)
           (py "  ") 105%N 32%N (py "first item"));
    [reflexivity | reflexivity | reflexivity
    | repeat constructor | reflexivity | reflexivity].
Defined.

(** ** Section extraction *)

Lemma hits_next_section_boundary {U : Unicode} tl tt text :
  hits_next_section (Some tl) (Some tt) text = true ↔
  is_section_boundary tl tt text.
Proof.
  unfold hits_next_section, is_section_boundary.
  destruct (is_section_start text); [|split; [done|by intros [? _]]].
  destruct (get_section_level text) as [level stype]. simpl.
  rewrite orb_true_iff, !andb_true_iff, !bool_decide_eq_true.
  split.
  - intros [[[= ->] ?]|[? ?]]; auto.
  - intros [_ [[-> ?]|[? ?]]]; auto.
Qed.

Lemma find_section_loop_before {U : Unicode} {ET : ElementTree} section_id
    pre paragraphs st :
  fs_found st = false →
  Forall (λ p, starts_with_section (get_paragraph_text p) section_id = false)
    pre →
  find_section_loop section_id (pre ++ paragraphs) st =
  find_section_loop section_id paragraphs st.
Proof.
  intros Hst. induction 1 as [|p pre Hp _ IH]; [done|].
  simpl. by rewrite Hst, Hp.
Qed.

Lemma find_section_loop_after {U : Unicode} {ET : ElementTree} section_id
    tl tt : ∀ post result,
  ∃ included rest,
    post = included ++ rest ∧
    fs_result (find_section_loop section_id post
                 (mkFs result true (Some tl) (Some tt))) =
      result ++ included ∧
    Forall (λ p, ¬ is_section_boundary tl tt (get_paragraph_text p)) included ∧
    (rest = [] ∨
     ∃ b rest', rest = b :: rest' ∧
       is_section_boundary tl tt (get_paragraph_text b)).
Proof.
  induction post as [|p post IH]; intros result.
  - exists [], []. simpl. rewrite app_nil_r. repeat split; [constructor|by left].
  - cbn [find_section_loop fs_found fs_target_level fs_target_type fs_result negb].
    destruct (hits_next_section (Some tl) (Some tt) (get_paragraph_text p))
      eqn:Hhit.
    + exists [], (p :: post). rewrite app_nil_r.
      repeat split; [constructor|]. right. exists p, post.
      split; [done|]. by apply hits_next_section_boundary.
    + destruct (IH (result ++ [p])) as (included & rest & -> & Hres & Hall & Hrest).
      exists (p :: included), rest. rewrite Hres, <-app_assoc.
      repeat split; [|done]. constructor; [|done].
      rewrite <-hits_next_section_boundary. by rewrite Hhit.
Qed.

(** C8: from the paragraph that starts the section, [find_section] returns
    that paragraph and all that follow it up to, and without, the first
    one that is a section boundary (a marker of the start's type at the
    same or a shallower depth, or a numeric marker at depth at most 2);
    without such a paragraph it returns all that follow. *)
Theorem find_section_extent {U : Unicode} {ET : ElementTree}
    (root : Element) (section_id : str) (pre : list Element)
    (start : Element) (post : list Element) :
  find_paragraphs root = pre ++ start :: post →
  Forall (λ p, starts_with_section (get_paragraph_text p) section_id = false)
    pre →
  starts_with_section (get_paragraph_text start) section_id = true →
  let target_level := (get_section_level (get_paragraph_text start)).1 in
  let target_type := (get_section_level (get_paragraph_text start)).2 in
  ∃ included rest,
    post = included ++ rest ∧
    find_section root section_id = start :: included ∧
    Forall (λ p, ¬ is_section_boundary target_level target_type
                     (get_paragraph_text p)) included ∧
    (rest = [] ∨
     ∃ b rest', rest = b :: rest' ∧
       is_section_boundary target_level target_type (get_paragraph_text b)).
Proof.
  intros Hparas Hpre Hstart tl tt. unfold find_section. rewrite Hparas.
  rewrite find_section_loop_before by done.
  cbn [find_section_loop fs_found fs_result negb]. rewrite Hstart.
  subst tl tt. destruct (get_section_level (get_paragraph_text start))
    as [level stype].
  destruct (find_section_loop_after section_id level stype post ([] ++ [start]))
    as (included & rest & Hpost & Hres & Hall & Hrest).
  exists included, rest. by rewrite Hres.
Qed.

(** Section 3.1 of the lease: the start, two more paragraphs, and the
    boundary ["3.2 Term"]. *)
Lemma find_section_extent_witness :
  ∃ included rest,
    [XPara [py "is due monthly"]; XPara [py "(a) in advance"];
     XPara [py "3.2 Term"]] = included ++ rest ∧
    find_section (U := ascii_unicode) (ET := toy_tree lease_files)
      lease_root (py "3.1") = XPara [py "3.1 Rent"] :: included ∧
    Forall (λ p, ¬ is_section_boundary (U := ascii_unicode) 2 "numeric"
                     (get_paragraph_text (ET := toy_tree lease_files) p))
      included ∧
    (rest = [] ∨
     ∃ b rest', rest = b :: rest' ∧
       is_section_boundary (U := ascii_unicode) 2 "numeric"
         (get_paragraph_text (ET := toy_tree lease_files) b)).
Proof.
  apply (find_section_extent (U := ascii_unicode) (ET := toy_tree lease_files)
           lease_root (py "3.1") [] (XPara [py "3.1 Rent"])
           [XPara [py "is due monthly"]; XPara [py "(a) in advance"];
            XPara [py "3.2 Term"]]);
    [reflexivity | constructor | reflexivity].
Defined.

Example fromstring_lease :
  fromstring (ElementTree := toy_tree lease_files) lease_bytes = lease_root.
Proof. reflexivity. Qed.

Example find_section_lease :
  find_section (U := ascii_unicode) (ET := toy_tree lease_files)
    lease_root (py "3.1") =
  [XPara [py "3.1 Rent"]; XPara [py "is due monthly"];
   XPara [py "(a) in advance"]].
Proof. reflexivity. Qed.

(** The section of ["(i)"], an [alpha_paren] marker, runs over the roman
    item ["(ii)"] and ends at the alphabetic item ["(b)"]. *)
Example find_section_roman_item :
  find_section (U := ascii_unicode) (ET := toy_tree lease_files)
    items_root (py "(i)") =
  [XPara [py "(i) first"]; XPara [py "(ii) second"]].
Proof. reflexivity. Qed.

(** ** Section text *)

Lemma find_section_text_loop_before {U : Unicode} {ET : ElementTree}
    section_id pre paragraphs result_texts :
  Forall (λ p, starts_with_section (get_paragraph_text p) section_id = false)
    pre →
  find_section_text_loop section_id (pre ++ paragraphs) result_texts false =
  find_section_text_loop section_id paragraphs result_texts false.
Proof.
  induction 1 as [|p pre Hp _ IH]; [done|]. simpl. by rewrite Hp.
Qed.

Lemma find_section_text_loop_after {U : Unicode} {ET : ElementTree}
    section_id : ∀ post result_texts,
  ∃ included rest,
    post = included ++ rest ∧
    find_section_text_loop section_id post result_texts true =
      result_texts ++ map get_paragraph_text included ∧
    Forall (λ p, SECTION_PATTERN_match (get_paragraph_text p) = None)
      included ∧
    (rest = [] ∨
     ∃ b rest', rest = b :: rest' ∧
       is_Some (SECTION_PATTERN_match (get_paragraph_text b))).
Proof.
  induction post as [|p post IH]; intros result_texts.
  - exists [], []. simpl. rewrite app_nil_r.
    repeat split; [constructor|by left].
  - cbn [find_section_text_loop negb]. case_bool_decide as Hm.
    + exists [], (p :: post). simpl. rewrite app_nil_r.
      repeat split; [constructor|]. right. by exists p, post.
    + destruct (IH (result_texts ++ [get_paragraph_text p]))
        as (included & rest & -> & Hres & Hall & Hrest).
      exists (p :: included), rest. rewrite Hres, <-app_assoc.
      repeat split; [|done]. constructor; [|done].
      destruct (SECTION_PATTERN_match (get_paragraph_text p)); [|done].
      by destruct Hm.
Qed.

(** C9, as the code has it: when a paragraph starts the section, the
    result is the text of that paragraph and of those that follow it up to
    the next section marker, joined with one space between two texts; when
    no paragraph starts the section, the result is [None]. *)
Theorem find_section_text_result {U : Unicode} {ET : ElementTree}
    (docx_path section_id : str) :
  (∀ xml_content,
     extract_xml_from_docx docx_path = Some xml_content →
     Forall (λ p, starts_with_section (get_paragraph_text p) section_id = false)
       (iter_p (fromstring xml_content)) →
     find_section_text docx_path section_id = None) ∧
  (∀ xml_content pre start post,
     extract_xml_from_docx docx_path = Some xml_content →
     iter_p (fromstring xml_content) = pre ++ start :: post →
     Forall (λ p, starts_with_section (get_paragraph_text p) section_id = false)
       pre →
     starts_with_section (get_paragraph_text start) section_id = true →
     ∃ included rest,
       post = included ++ rest ∧
       find_section_text docx_path section_id =
         Some (str_join (py " ") (map get_paragraph_text (start :: included))) ∧
       Forall (λ p, SECTION_PATTERN_match (get_paragraph_text p) = None)
         included ∧
       (rest = [] ∨
        ∃ b rest', rest = b :: rest' ∧
          is_Some (SECTION_PATTERN_match (get_paragraph_text b)))).
Proof.
  split.
  - intros xml_content Hxml Hnone. unfold find_section_text. rewrite Hxml.
    rewrite <-(app_nil_r (iter_p _)).
    by rewrite find_section_text_loop_before.
  - intros xml_content pre start post Hxml Hparas Hpre Hstart.
    unfold find_section_text. rewrite Hxml, Hparas.
    rewrite find_section_text_loop_before by done.
    cbn [find_section_text_loop negb]. rewrite Hstart.
    destruct (find_section_text_loop_after section_id post
                ([] ++ [get_paragraph_text start]))
      as (included & rest & Hpost & Hres & Hall & Hrest).
    exists included, rest. rewrite Hres. by repeat split.
Qed.

(** Section 3.1 of the lease is found, section 4 is not. *)
Lemma find_section_text_result_witness :
  find_section_text (U := ascii_unicode) (ET := toy_tree lease_files)
    (py "lease.docx") (py "4") = None ∧
  ∃ included rest,
    [XPara [py "is due monthly"]; XPara [py "(a) in advance"];
     XPara [py "3.2 Term"]] = included ++ rest ∧
    find_section_text (U := ascii_unicode) (ET := toy_tree lease_files)
      (py "lease.docx") (py "3.1") =
      Some (str_join (py " ")
              (map (get_paragraph_text (ET := toy_tree lease_files))
                 (XPara [py "3.1 Rent"] :: included))) ∧
    Forall (λ p, SECTION_PATTERN_match (U := ascii_unicode)
                   (get_paragraph_text (ET := toy_tree lease_files) p) = None)
      included ∧
    (rest = [] ∨
     ∃ b rest', rest = b :: rest' ∧
       is_Some (SECTION_PATTERN_match (U := ascii_unicode)
                  (get_paragraph_text (ET := toy_tree lease_files) b))).
Proof.
  split.
  - apply (proj1 (find_section_text_result (U := ascii_unicode)
                    (ET := toy_tree lease_files) (py "lease.docx") (py "4"))
             lease_bytes);
      [reflexivity | repeat constructor].
  - apply (proj2 (find_section_text_result (U := ascii_unicode)
                    (ET := toy_tree lease_files) (py "lease.docx") (py "3.1"))
             lease_bytes
             [] (XPara [py "3.1 Rent"]));
      [reflexivity | reflexivity | constructor | reflexivity].
Defined.

Example find_section_text_lease :
  find_section_text (U := ascii_unicode) (ET := toy_tree lease_files)
    (py "lease.docx") (py "3.1") = Some (py "3.1 Rent is due monthly").
Proof. reflexivity. Qed.

(** C9 fails as stated: the texts of the section are joined with spaces,
    so the result is not their concatenation. *)
Lemma find_section_text_not_concatenation :
  ¬ (∀ (U : Unicode) (ET : ElementTree) (docx_path section_id : str)
       (xml_content : list N) (pre : list Element) (start : Element)
       (post : list Element),
       extract_xml_from_docx docx_path = Some xml_content →
       iter_p (fromstring xml_content) = pre ++ start :: post →
       Forall (λ p, starts_with_section (get_paragraph_text p) section_id = false)
         pre →
       starts_with_section (get_paragraph_text start) section_id = true →
       ∃ included rest,
         post = included ++ rest ∧
         find_section_text docx_path section_id =
           Some (concat (map get_paragraph_text (start :: included)))).
Proof.
  intros H.
  destruct (H ascii_unicode (toy_tree lease_files) (py "lease.docx") (py "3.1")
              lease_bytes
              [] (XPara [py "3.1 Rent"])
              [XPara [py "is due monthly"]; XPara [py "(a) in advance"];
               XPara [py "3.2 Term"]]
              eq_refl eq_refl (Forall_nil_2 _) eq_refl)
    as (included & rest & Hpost & Hres).
  rewrite find_section_text_lease in Hres.
  destruct included as [|p1 [|p2 [|p3 [|p4 included]]]];
    simplify_list_eq; discriminate Hres.
Qed.

(** * Further properties of [trace_lcs.py] *)

(** ** Tokenizers *)

(** X1: Character mode: one token per character, and joining gives the text
    back. *)
Theorem tokenize_chars_lossless (text : str) :
  join_tokens (tokenize_chars text) = text ∧
  length (tokenize_chars text) = length text ∧
  Forall (λ t, length t = 1) (tokenize_chars text).
Proof.
  unfold join_tokens, tokenize_chars. induction text as [|c text IH].
  - repeat split. constructor.
  - destruct IH as (IH1 & IH2 & IH3). simpl. rewrite IH1, IH2.
    repeat split. by constructor.
Qed.

Lemma adjacent_nil {A} (R : A → A → Prop) : adjacent R [].
Proof. intros i a b Ha. done. Qed.

Lemma adjacent_singleton {A} (R : A → A → Prop) x : adjacent R [x].
Proof. intros [|i] a b Ha Hb; done. Qed.

Lemma adjacent_snoc {A} (R : A → A → Prop) l x y :
  adjacent R (l ++ [x]) → R x y → adjacent R ((l ++ [x]) ++ [y]).
Proof.
  intros H Hxy i a b Ha Hb.
  destruct (decide (S i < length (l ++ [x]))) as [Hlt|Hge].
  - rewrite lookup_app_l in Ha by lia. rewrite lookup_app_l in Hb by lia.
    by eapply H.
  - rewrite length_app in Hge. simpl in Hge.
    assert (i = length l) as ->.
    { apply lookup_lt_Some in Hb. rewrite !length_app in Hb. simpl in Hb. lia. }
    rewrite <-app_assoc in Ha.
    change ((l ++ x :: [y]) !! length l = Some a) in Ha.
    rewrite list_lookup_middle in Ha by done.
    replace (S (length l)) with (length (l ++ [x])) in Hb
      by (rewrite length_app; simpl; lia).
    rewrite list_lookup_middle in Hb by done. by simplify_eq.
Qed.

Lemma adjacent_snoc_nil {A} (R : A → A → Prop) y : adjacent R ([] ++ [y]).
Proof. apply adjacent_singleton. Qed.

(** Invariant of the loop of [tokenize_words]: the tokens collected so far
    have the two shapes, no two words are neighbours, the last token (if
    any) is a white-space token, and [current] has no white space. *)
Lemma tokenize_step_shapes (text : str) : ∀ toks current,
  Forall (λ t, is_space_token t ∨ is_word_token t) toks →
  adjacent (λ t1 t2, is_space_token t1 ∨ is_space_token t2) toks →
  (∀ t, last toks = Some t → is_space_token t) →
  Forall (λ c, is_word_break c = false) current →
  let '(toks', current') := foldl tokenize_step (toks, current) text in
  Forall (λ t, is_space_token t ∨ is_word_token t) toks' ∧
  adjacent (λ t1 t2, is_space_token t1 ∨ is_space_token t2) toks' ∧
  (∀ t, last toks' = Some t → is_space_token t) ∧
  Forall (λ c, is_word_break c = false) current'.
Proof.
  induction text as [|c text IH]; intros toks current Hshape Hadj Hlast Hcur;
    cbn [foldl]; [done|].
  unfold tokenize_step at 2.
  destruct (is_word_break c) eqn:Hc.
  - assert (is_space_token [c]) as Hsp by by exists c.
    apply IH; [| | |constructor].
    + apply Forall_app. split; [|apply Forall_singleton; by left].
      case_bool_decide as Hne; [|done].
      apply Forall_app. split; [done|]. apply Forall_singleton. by right.
    + case_bool_decide as Hne.
      * apply adjacent_snoc; [|by right].
        destruct toks as [|t0 toks _] using rev_ind;
          [apply adjacent_snoc_nil|].
        apply adjacent_snoc; [done|]. left. apply Hlast. by rewrite last_snoc.
      * destruct toks as [|t0 toks _] using rev_ind;
          [apply adjacent_snoc_nil|].
        apply adjacent_snoc; [done|]. by right.
    + intros t. rewrite last_snoc. by intros [= <-].
  - apply IH; [done..|]. apply Forall_app. split; [done|].
    by apply Forall_singleton.
Qed.

(** X2: Word mode: every token is one white-space character or a non-empty
    run without white space; no token is empty. *)
Theorem tokenize_words_token_shapes (text : str) :
  Forall (λ t, is_space_token t ∨ is_word_token t) (tokenize_words text).
Proof.
  unfold tokenize_words.
  assert (∀ t : str, last [] = Some t → is_space_token t) as Hnil by done.
  pose proof (tokenize_step_shapes text [] [] (Forall_nil_2 _)
                (adjacent_nil _) Hnil (Forall_nil_2 _)) as H.
  destruct (foldl tokenize_step ([], []) text) as [toks current].
  destruct H as (Hshape & _ & _ & Hcur).
  case_bool_decide as Hne; [|done].
  apply Forall_app. split; [done|]. apply Forall_singleton. by right.
Qed.

(** X3: Word mode: of two neighbouring tokens one is a white-space token, so a
    word is never split: each word token is a maximal run without white
    space. *)
Theorem tokenize_words_words_maximal (text : str) :
  adjacent (λ t1 t2, is_space_token t1 ∨ is_space_token t2)
    (tokenize_words text).
Proof.
  unfold tokenize_words.
  assert (∀ t : str, last [] = Some t → is_space_token t) as Hnil by done.
  pose proof (tokenize_step_shapes text [] [] (Forall_nil_2 _)
                (adjacent_nil _) Hnil (Forall_nil_2 _)) as H.
  destruct (foldl tokenize_step ([], []) text) as [toks current].
  destruct H as (_ & Hadj & Hlast & _).
  case_bool_decide as Hne; [|done].
  destruct toks as [|t0 toks _] using rev_ind; [apply adjacent_snoc_nil|].
  apply adjacent_snoc; [done|]. left. apply Hlast. by rewrite last_snoc.
Qed.

(** ** The matrix *)

Lemma common_subsequence_sym s l1 l2 :
  common_subsequence s l1 l2 → common_subsequence s l2 l1.
Proof. intros [H1 H2]. by split. Qed.

Lemma lcs_length_comm l1 l2 : lcs_length l1 l2 = lcs_length l2 l1.
Proof.
  assert (∀ a b, lcs_length a b ≤ lcs_length b a) as Hle.
  { intros a b. destruct (lcs_length_attained a b) as (s & Hs & <-).
    by apply lcs_length_bound, common_subsequence_sym. }
  apply Nat.le_antisymm; apply Hle.
Qed.

Lemma lcs_prefix_comm seq1 seq2 i j :
  lcs_prefix seq1 seq2 i j = lcs_prefix seq2 seq1 j i.
Proof. apply lcs_length_comm. Qed.

Lemma lcs_prefix_le_l seq1 seq2 i j : lcs_prefix seq1 seq2 i j ≤ i.
Proof.
  destruct (lcs_prefix_optimal seq1 seq2 i j) as [(s & [H1 _] & <-) _].
  apply sublist_length in H1. rewrite length_take in H1. lia.
Qed.

Lemma lcs_prefix_le_r seq1 seq2 i j : lcs_prefix seq1 seq2 i j ≤ j.
Proof. rewrite lcs_prefix_comm. apply lcs_prefix_le_l. Qed.

Lemma take_sublist_take {A} (l : list A) i i' :
  i ≤ i' → take i l `sublist_of` take i' l.
Proof.
  intros Hi. replace i' with (i + (i' - i)) by lia.
  rewrite <-take_take_drop. apply sublist_inserts_r. done.
Qed.

(** Growing the prefixes by [di] and [dj] tokens raises the length by at
    most [di + dj], and never lowers it. *)
Lemma lcs_prefix_monotone seq1 seq2 i j i' j' :
  i ≤ i' → j ≤ j' →
  lcs_prefix seq1 seq2 i j ≤ lcs_prefix seq1 seq2 i' j' ∧
  lcs_prefix seq1 seq2 i' j' ≤ lcs_prefix seq1 seq2 i j + (i' - i) + (j' - j).
Proof.
  intros Hi Hj.
  destruct (lcs_prefix_optimal seq1 seq2 i j) as [(s & [Hs1 Hs2] & Hs) Hopt].
  destruct (lcs_prefix_optimal seq1 seq2 i' j') as [(s' & [Hs1' Hs2'] & Hs') Hopt'].
  split.
  - rewrite <-Hs. apply Hopt'. split.
    + etrans; [exact Hs1|]. by apply take_sublist_take.
    + etrans; [exact Hs2|]. by apply take_sublist_take.
  - rewrite <-Hs'.
    replace i' with (i + (i' - i)) in Hs1' by lia.
    rewrite <-take_take_drop in Hs1'.
    apply sublist_app_r in Hs1' as (s1 & s2 & -> & Hs1a & Hs2a).
    assert (s1 `sublist_of` take j' seq2) as Hs1b.
    { etrans; [|exact Hs2']. by apply sublist_inserts_r. }
    replace j' with (j + (j' - j)) in Hs1b by lia.
    rewrite <-take_take_drop in Hs1b.
    apply sublist_app_r in Hs1b as (t1 & t2 & -> & Ht1 & Ht2).
    assert (t1 `sublist_of` take i seq1) as Ht1a.
    { etrans; [|exact Hs1a]. by apply sublist_inserts_r. }
    pose proof (Hopt t1 (conj Ht1a Ht1)).
    apply sublist_length in Hs2a, Ht2.
    rewrite length_take in Hs2a, Ht2. rewrite !length_app. lia.
Qed.

(** X4: [compute_lcs_matrix] never raises: it returns [|A| + 1] rows of
    [|B| + 1] entries each. *)
Theorem compute_lcs_matrix_shape (A B : list str) :
  ∃ matrix : Matrix,
    compute_lcs_matrix A B = Ok matrix ∧
    length matrix = length A + 1 ∧
    Forall (λ row, length row = length B + 1) matrix.
Proof.
  destruct (compute_lcs_matrix_cells A B) as (matrix & Hrun & [Hlen Hrows] & _).
  exists matrix. split; [done|]. split; [lia|].
  apply Forall_lookup. intros r row Hrow. rewrite (Hrows r row Hrow). lia.
Qed.

(** X5: Every entry, not only the last: [matrix[i][j]] is the length of a
    common subsequence of the first [i] tokens of [A] and the first [j]
    tokens of [B], and no common subsequence of them is longer. *)
Theorem compute_lcs_matrix_every_prefix (A B : list str) (i j : nat) :
  i ≤ length A → j ≤ length B →
  ∃ (matrix : Matrix) (k : nat),
    compute_lcs_matrix A B = Ok matrix ∧
    get2 matrix i j = Ok k ∧
    (∃ s, common_subsequence s (take i A) (take j B) ∧ length s = k) ∧
    (∀ s, common_subsequence s (take i A) (take j B) → length s ≤ k).
Proof.
  intros Hi Hj.
  destruct (compute_lcs_matrix_cells A B) as (matrix & Hrun & _ & Hcells).
  exists matrix, (lcs_prefix A B i j).
  split; [done|]. split; [by apply Hcells|]. apply lcs_prefix_optimal.
Qed.

Lemma compute_lcs_matrix_every_prefix_witness :
  ∃ (matrix : Matrix) (k : nat),
    compute_lcs_matrix [py "x"; py "y"; py "z"] [py "x"; py "z"] = Ok matrix ∧
    get2 matrix 2 1 = Ok k ∧
    (∃ s, common_subsequence s (take 2 [py "x"; py "y"; py "z"])
            (take 1 [py "x"; py "z"]) ∧ length s = k) ∧
    (∀ s, common_subsequence s (take 2 [py "x"; py "y"; py "z"])
            (take 1 [py "x"; py "z"]) → length s ≤ k).
Proof.
  apply (compute_lcs_matrix_every_prefix
           [py "x"; py "y"; py "z"] [py "x"; py "z"] 2 1); simpl; lia.
Defined.

(** X6: Row 0 and column 0 hold zeros, and no entry [(i, j)] exceeds [i] or
    [j]. *)
Theorem compute_lcs_matrix_borders (A B : list str) (i j : nat) :
  i ≤ length A → j ≤ length B →
  ∃ (matrix : Matrix) (v : nat),
    compute_lcs_matrix A B = Ok matrix ∧
    get2 matrix 0 j = Ok 0 ∧
    get2 matrix i 0 = Ok 0 ∧
    get2 matrix i j = Ok v ∧ v ≤ i `min` j.
Proof.
  intros Hi Hj.
  destruct (compute_lcs_matrix_cells A B) as (matrix & Hrun & _ & Hcells).
  exists matrix, (lcs_prefix A B i j). split; [done|].
  pose proof (lcs_prefix_le_l A B i j). pose proof (lcs_prefix_le_r A B i j).
  repeat split.
  - rewrite Hcells by lia. by rewrite lcs_prefix_0_l.
  - rewrite Hcells by lia. by rewrite lcs_prefix_0_r.
  - by apply Hcells.
  - lia.
Qed.

Lemma compute_lcs_matrix_borders_witness :
  ∃ (matrix : Matrix) (v : nat),
    compute_lcs_matrix [py "x"; py "y"; py "z"] [py "x"; py "z"] = Ok matrix ∧
    get2 matrix 0 2 = Ok 0 ∧
    get2 matrix 3 0 = Ok 0 ∧
    get2 matrix 3 2 = Ok v ∧ v ≤ 3 `min` 2.
Proof.
  apply (compute_lcs_matrix_borders
           [py "x"; py "y"; py "z"] [py "x"; py "z"] 3 2); simpl; lia.
Defined.

(** X7: The matrix never decreases along a row or a column, and from [(i, j)]
    to [(i', j')] it grows by at most the number of steps. *)
Theorem compute_lcs_matrix_monotone (A B : list str) (i j i' j' : nat) :
  i ≤ i' → i' ≤ length A → j ≤ j' → j' ≤ length B →
  ∃ (matrix : Matrix) (v v' : nat),
    compute_lcs_matrix A B = Ok matrix ∧
    get2 matrix i j = Ok v ∧
    get2 matrix i' j' = Ok v' ∧
    v ≤ v' ∧ v' ≤ v + (i' - i) + (j' - j).
Proof.
  intros Hi Hi' Hj Hj'.
  destruct (compute_lcs_matrix_cells A B) as (matrix & Hrun & _ & Hcells).
  exists matrix, (lcs_prefix A B i j), (lcs_prefix A B i' j').
  split; [done|]. split; [apply Hcells; lia|]. split; [apply Hcells; lia|].
  by apply lcs_prefix_monotone.
Qed.

Lemma compute_lcs_matrix_monotone_witness :
  ∃ (matrix : Matrix) (v v' : nat),
    compute_lcs_matrix [py "x"; py "y"; py "z"] [py "x"; py "z"] = Ok matrix ∧
    get2 matrix 1 1 = Ok v ∧
    get2 matrix 3 2 = Ok v' ∧
    v ≤ v' ∧ v' ≤ v + (3 - 1) + (2 - 1).
Proof.
  apply (compute_lcs_matrix_monotone
           [py "x"; py "y"; py "z"] [py "x"; py "z"] 1 1 3 2); simpl; lia.
Defined.

(** X8: Swapping the two sequences transposes the matrix. *)
Theorem compute_lcs_matrix_transpose (A B : list str) (i j : nat) :
  i ≤ length A → j ≤ length B →
  ∃ (matrix matrix' : Matrix) (v : nat),
    compute_lcs_matrix A B = Ok matrix ∧
    compute_lcs_matrix B A = Ok matrix' ∧
    get2 matrix i j = Ok v ∧ get2 matrix' j i = Ok v.
Proof.
  intros Hi Hj.
  destruct (compute_lcs_matrix_cells A B) as (matrix & Hrun & _ & Hcells).
  destruct (compute_lcs_matrix_cells B A) as (matrix' & Hrun' & _ & Hcells').
  exists matrix, matrix', (lcs_prefix A B i j).
  split; [done|]. split; [done|]. split; [by apply Hcells|].
  rewrite Hcells' by done. by rewrite lcs_prefix_comm.
Qed.

Lemma compute_lcs_matrix_transpose_witness :
  ∃ (matrix matrix' : Matrix) (v : nat),
    compute_lcs_matrix [py "x"; py "y"; py "z"] [py "x"; py "z"] = Ok matrix ∧
    compute_lcs_matrix [py "x"; py "z"] [py "x"; py "y"; py "z"] = Ok matrix' ∧
    get2 matrix 3 1 = Ok v ∧ get2 matrix' 1 3 = Ok v.
Proof.
  apply (compute_lcs_matrix_transpose
           [py "x"; py "y"; py "z"] [py "x"; py "z"] 3 1); simpl; lia.
Defined.

(** X9: For identical sequences the diagonal of the matrix counts the tokens:
    [matrix[i][i] = i], so the last entry is the common length. *)
Theorem compute_lcs_matrix_identical (A : list str) (i : nat) :
  i ≤ length A →
  ∃ matrix : Matrix,
    compute_lcs_matrix A A = Ok matrix ∧ get2 matrix i i = Ok i.
Proof.
  intros Hi.
  destruct (compute_lcs_matrix_cells A A) as (matrix & Hrun & _ & Hcells).
  exists matrix. split; [done|]. rewrite Hcells by done. f_equal.
  apply Nat.le_antisymm; [apply lcs_prefix_le_l|].
  destruct (lcs_prefix_optimal A A i i) as [_ Hopt].
  specialize (Hopt (take i A) (conj (reflexivity _) (reflexivity _))).
  rewrite length_take in Hopt. lia.
Qed.

Lemma compute_lcs_matrix_identical_witness :
  ∃ matrix : Matrix,
    compute_lcs_matrix [py "x"; py "y"] [py "x"; py "y"] = Ok matrix ∧
    get2 matrix 2 2 = Ok 2.
Proof.
  apply (compute_lcs_matrix_identical [py "x"; py "y"] 2). simpl. lia.
Defined.

(** ** The backtracker on the computed matrix *)

(** One iteration on the matrix of [compute_lcs_matrix]: the branch taken
    and what it means for the longest-common-subsequence length. *)
Lemma backtrack_step_lcs matrix seq1 seq2 i j edits :
  (∀ i j, i ≤ length seq1 → j ≤ length seq2 →
     get2 matrix i j = Ok (lcs_prefix seq1 seq2 i j)) →
  i ≤ length seq1 → j ≤ length seq2 → 0 < i ∨ 0 < j →
  ∃ st', backtrack_step matrix seq1 seq2 (mkBt i j edits) = Ok st' ∧
    ((∃ t, 0 < i ∧ 0 < j ∧
           lcs_prefix seq1 seq2 i j = S (lcs_prefix seq1 seq2 (i - 1) (j - 1)) ∧
           st' = mkBt (i - 1) (j - 1)
                   (edits ++ [mkEdit EQUAL [t] (Some (i - 1)) (Some (j - 1))])) ∨
     (∃ t, 0 < j ∧
           lcs_prefix seq1 seq2 i j = lcs_prefix seq1 seq2 i (j - 1) ∧
           st' = mkBt i (j - 1)
                   (edits ++ [mkEdit INSERT [t] None (Some (j - 1))])) ∨
     (∃ t, 0 < i ∧
           lcs_prefix seq1 seq2 i j = lcs_prefix seq1 seq2 (i - 1) j ∧
           st' = mkBt (i - 1) j
                   (edits ++ [mkEdit DELETE [t] (Some (i - 1)) None]))).
Proof.
  intros Hcells Hi Hj Hpos.
  unfold backtrack_step, bt_is_match, bt_is_insert. cbn [bt_i bt_j bt_edits].
  destruct (decide (0 < i)) as [Hi0|Hi0]; destruct (decide (0 < j)) as [Hj0|Hj0];
    try lia.
  - rewrite !bool_decide_eq_true_2 by done.
    rewrite (bool_decide_eq_false_2 (i = 0)) by lia.
    destruct (subscript_lt seq1 (i - 1)) as (a & Ea & Ha); [lia|].
    destruct (subscript_lt seq2 (j - 1)) as (b & Eb & Hb); [lia|].
    rewrite Ea, Eb. rsimpl.
    pose proof (lcs_prefix_S seq1 seq2 (i - 1) (j - 1) a b Ha Hb) as Hrec.
    replace (S (i - 1)) with i in Hrec by lia.
    replace (S (j - 1)) with j in Hrec by lia.
    case_bool_decide as Hab.
    { rewrite decide_True in Hrec by done.
      eexists; split; [done|]. left. by exists a. }
    rewrite decide_False in Hrec by done.
    rewrite !Hcells by lia. rsimpl. case_bool_decide as Hcmp.
    + eexists; split; [done|]. right; left. exists b.
      repeat split; [done|lia].
    + eexists; split; [done|]. right; right. exists a.
      repeat split; [done|lia].
  - rewrite (bool_decide_eq_true_2 (0 < i)) by done.
    rewrite (bool_decide_eq_false_2 (0 < j)) by done. rsimpl.
    destruct (subscript_lt seq1 (i - 1)) as (a & Ea & Ha); [lia|].
    rewrite Ea. rsimpl. eexists; split; [done|].
    right; right. exists a. assert (j = 0) as -> by lia.
    by rewrite !lcs_prefix_0_r.
  - rewrite (bool_decide_eq_false_2 (0 < i)) by done.
    rewrite (bool_decide_eq_true_2 (0 < j)) by done.
    rewrite bool_decide_eq_true_2 by lia. rsimpl.
    destruct (subscript_lt seq2 (j - 1)) as (b & Eb & Hb); [lia|].
    rewrite Eb. rsimpl. eexists; split; [done|].
    right; left. exists b. assert (i = 0) as -> by lia.
    by rewrite !lcs_prefix_0_l.
Qed.

Lemma equal_count_snoc edits e :
  equal_count (edits ++ [e]) =
  equal_count edits + (if decide (op e = EQUAL) then 1 else 0).
Proof.
  unfold equal_count. rewrite filter_app, length_app. f_equal.
  rewrite filter_cons. by destruct (decide (op e = EQUAL)).
Qed.

Lemma equal_count_reverse edits :
  equal_count (reverse edits) = equal_count edits.
Proof. unfold equal_count. by rewrite filter_reverse, length_reverse. Qed.

(** X10: The script aligns a longest common subsequence: its [EQUAL] edits are
    as many as the last entry of the matrix says, and its length is
    [|A| + |B|] less that number. *)
Theorem backtrack_lcs_equal_count (A B : list str) :
  ∃ (matrix : Matrix) (script : list Edit) (k : nat),
    compute_lcs_matrix A B = Ok matrix ∧
    backtrack_lcs (length A + length B) matrix A B = Ok script ∧
    get2 matrix (length A) (length B) = Ok k ∧
    equal_count script = k ∧
    length script + k = length A + length B.
Proof.
  destruct (compute_lcs_matrix_cells A B) as (matrix & Hrun & _ & Hcells).
  destruct (backtrack_loop_invariant
              (λ st, bt_i st ≤ length A ∧ bt_j st ≤ length B ∧
                     equal_count (bt_edits st) +
                       lcs_prefix A B (bt_i st) (bt_j st) =
                       lcs_prefix A B (length A) (length B) ∧
                     length (bt_edits st) + equal_count (bt_edits st) +
                       bt_i st + bt_j st = length A + length B)
              matrix A B)
    with (fuel := length A + length B) (st := mkBt (length A) (length B) [])
    as (st' & Hloop & (_ & _ & Hk & Hlen) & Hi & Hj).
  - intros [i j edits] (Hi & Hj & Hk & Hlen) Hpos. simpl in *.
    destruct (backtrack_step_lcs matrix A B i j edits Hcells Hi Hj Hpos)
      as (st' & -> &
          [(t & ? & ? & Hrec & ->)|[(t & ? & Hrec & ->)|(t & ? & Hrec & ->)]]);
      eexists; (split; [reflexivity|]); simpl;
      rewrite equal_count_snoc, length_app; simpl; lia.
  - simpl. unfold equal_count. simpl. lia.
  - done.
  - exists matrix, (reverse (bt_edits st')), (lcs_prefix A B (length A) (length B)).
    split; [done|]. split; [unfold backtrack_lcs; by rewrite Hloop|].
    split; [by apply Hcells|].
    rewrite Hi, Hj, lcs_prefix_0_l in Hk.
    rewrite equal_count_reverse, length_reverse. lia.
Qed.

(** X11: Every raw edit carries one token, read from the inputs at the
    positions it records: both positions for [EQUAL], where the two tokens
    agree, the first only for [DELETE], the second only for [INSERT]. *)
Theorem backtrack_lcs_edits_read_inputs (A B : list str) :
  ∃ (matrix : Matrix) (script : list Edit),
    compute_lcs_matrix A B = Ok matrix ∧
    backtrack_lcs (length A + length B) matrix A B = Ok script ∧
    Forall (edit_reads A B) script.
Proof.
  destruct (compute_lcs_matrix_cells A B) as (matrix & Hrun & Hshape & _).
  destruct (backtrack_loop_invariant
              (λ st, bt_i st ≤ length A ∧ bt_j st ≤ length B ∧
                     Forall (edit_reads A B) (bt_edits st))
              matrix A B)
    with (fuel := length A + length B) (st := mkBt (length A) (length B) [])
    as (st' & Hloop & (_ & _ & Hall) & _).
  - intros [i j edits] (Hi & Hj & Hall) Hpos. simpl in *.
    destruct (backtrack_step_cases matrix A B i j edits Hshape Hi Hj Hpos)
      as (st' & -> &
          [(t & ? & ? & Ha & Hb & ->)|[(t & ? & Hb & _ & ->)|(t & ? & Ha & _ & ->)]]);
      eexists; (split; [reflexivity|]); simpl;
      (split; [|lia]); (split; [lia|]); (split; [lia|]);
      (apply Forall_app; split; [done|]); apply Forall_singleton;
      unfold edit_reads; simpl; eauto 10.
  - simpl. repeat split; [lia..|constructor].
  - done.
  - exists matrix, (reverse (bt_edits st')).
    split; [done|]. split; [unfold backtrack_lcs; by rewrite Hloop|].
    by apply Forall_reverse.
Qed.

Lemma seq_pred_cons i k : 0 < i → (i - 1) :: seq i k = seq (i - 1) (S k).
Proof. intros Hi. simpl. by replace (S (i - 1)) with i by lia. Qed.

(** X12: The positions recorded in the script run through both inputs in
    order: the [pos1] fields present are [0, 1, ..., |A| - 1] and the
    [pos2] fields present are [0, 1, ..., |B| - 1]. *)
Theorem backtrack_lcs_positions_in_order (A B : list str) :
  ∃ (matrix : Matrix) (script : list Edit),
    compute_lcs_matrix A B = Ok matrix ∧
    backtrack_lcs (length A + length B) matrix A B = Ok script ∧
    omap pos1 script = seq 0 (length A) ∧
    omap pos2 script = seq 0 (length B).
Proof.
  destruct (compute_lcs_matrix_cells A B) as (matrix & Hrun & Hshape & _).
  destruct (backtrack_loop_invariant
              (λ st, bt_i st ≤ length A ∧ bt_j st ≤ length B ∧
                     omap pos1 (reverse (bt_edits st)) =
                       seq (bt_i st) (length A - bt_i st) ∧
                     omap pos2 (reverse (bt_edits st)) =
                       seq (bt_j st) (length B - bt_j st))
              matrix A B)
    with (fuel := length A + length B) (st := mkBt (length A) (length B) [])
    as (st' & Hloop & (_ & _ & H1 & H2) & Hi & Hj).
  - intros [i j edits] (Hi & Hj & H1 & H2) Hpos. simpl in *.
    destruct (backtrack_step_cases matrix A B i j edits Hshape Hi Hj Hpos)
      as (st' & -> &
          [(t & ? & ? & _ & _ & ->)|[(t & ? & _ & _ & ->)|(t & ? & _ & _ & ->)]]);
      eexists; (split; [reflexivity|]); simpl;
      (split; [|lia]); (split; [lia|]); (split; [lia|]);
      rewrite reverse_snoc; cbn [omap list_omap pos1 pos2 option_bind mbind];
      rewrite ?H1, ?H2; split;
      rewrite ?seq_pred_cons by done; try done; f_equal; lia.
  - simpl. rewrite !Nat.sub_diag. repeat split; lia.
  - done.
  - exists matrix, (reverse (bt_edits st')).
    split; [done|]. split; [unfold backtrack_lcs; by rewrite Hloop|].
    rewrite Hi in H1. rewrite Hj in H2. by rewrite Nat.sub_0_r in H1, H2.
Qed.

(** ** The coalescer *)

Lemma Edit_eta (e : Edit) : mkEdit (op e) (tokens e) (pos1 e) (pos2 e) = e.
Proof. by destruct e. Qed.

Lemma coalesce_edits_unfold e0 rest :
  coalesce_edits (e0 :: rest) =
  (foldl coalesce_step ([], e0) rest).1 ++ [(foldl coalesce_step ([], e0) rest).2].
Proof.
  unfold coalesce_edits. rewrite Edit_eta.
  by destruct (foldl coalesce_step ([], e0) rest).
Qed.

Lemma coalesce_edits_no_adjacent edits :
  no_adjacent_same_op (coalesce_edits edits).
Proof.
  destruct edits as [|e0 rest]; [apply no_adjacent_same_op_nil|].
  rewrite coalesce_edits_unfold.
  apply coalesce_fold_alternates, no_adjacent_same_op_singleton.
Qed.

Lemma coalesce_fold_fixed rest : ∀ coalesced current,
  no_adjacent_same_op (current :: rest) →
  (foldl coalesce_step (coalesced, current) rest).1 ++
    [(foldl coalesce_step (coalesced, current) rest).2] =
  coalesced ++ current :: rest.
Proof.
  induction rest as [|e rest IH]; intros coalesced current Halt; cbn [foldl].
  - done.
  - apply no_adjacent_same_op_cons in Halt as [Hne Halt].
    unfold coalesce_step at 2 4. rewrite decide_False by congruence.
    rewrite Edit_eta, IH by done. by rewrite <-app_assoc.
Qed.

(** X13: A script is left as it is by [coalesce_edits] exactly when no two of
    its neighbours have the same operation. *)
Theorem coalesce_edits_fixed_iff (edits : list Edit) :
  coalesce_edits edits = edits ↔ no_adjacent_same_op edits.
Proof.
  split.
  - intros <-. apply coalesce_edits_no_adjacent.
  - intros Halt. destruct edits as [|e0 rest]; [done|].
    rewrite coalesce_edits_unfold. by apply coalesce_fold_fixed.
Qed.

(** X14: Coalescing twice is coalescing once. *)
Theorem coalesce_edits_idempotent (edits : list Edit) :
  coalesce_edits (coalesce_edits edits) = coalesce_edits edits.
Proof.
  pose proof (coalesce_edits_no_adjacent edits) as Halt.
  destruct (coalesce_edits edits) as [|e0 rest]; [done|].
  rewrite coalesce_edits_unfold. by apply coalesce_fold_fixed.
Qed.

Lemma coalesce_fold_tokens (P : EditOp → Prop) `{∀ o, Decision (P o)} rest :
  ∀ coalesced current,
  concat (map tokens (filter (λ e, P (op e))
    ((foldl coalesce_step (coalesced, current) rest).1 ++
       [(foldl coalesce_step (coalesced, current) rest).2]))) =
  concat (map tokens (filter (λ e, P (op e)) (coalesced ++ current :: rest))).
Proof.
  induction rest as [|e rest IH]; intros coalesced current; cbn [foldl].
  - done.
  - unfold coalesce_step at 2 4.
    destruct (decide (op e = op current)) as [Heq|Hne].
    + rewrite IH. rewrite !filter_app, !map_app, !concat_app. f_equal.
      rewrite !filter_cons. simpl. rewrite Heq.
      destruct (decide (P (op current))); simpl; [|done].
      by rewrite app_assoc.
    + rewrite IH, Edit_eta. by rewrite <-app_assoc.
Qed.

Lemma coalesce_edits_tokens (P : EditOp → Prop) `{∀ o, Decision (P o)} edits :
  concat (map tokens (filter (λ e, P (op e)) (coalesce_edits edits))) =
  concat (map tokens (filter (λ e, P (op e)) edits)).
Proof.
  destruct edits as [|e0 rest]; [done|].
  rewrite coalesce_edits_unfold. by rewrite coalesce_fold_tokens.
Qed.

Lemma filter_always (l : list Edit) : filter (λ _, True) l = l.
Proof.
  induction l as [|e l IH]; [done|]. rewrite filter_cons. simpl. by rewrite IH.
Qed.

Lemma coalesce_edits_sequence1 edits :
  sequence1_of (coalesce_edits edits) = sequence1_of edits.
Proof.
  unfold sequence1_of.
  exact (coalesce_edits_tokens (λ o, o = EQUAL ∨ o = DELETE) edits).
Qed.

Lemma coalesce_edits_sequence2 edits :
  sequence2_of (coalesce_edits edits) = sequence2_of edits.
Proof.
  unfold sequence2_of.
  exact (coalesce_edits_tokens (λ o, o = EQUAL ∨ o = INSERT) edits).
Qed.

(** X15: Coalescing keeps what a script says: the tokens of its [EQUAL] and
    [DELETE] groups are those of its [EQUAL] and [DELETE] edits, in order,
    the same for [EQUAL] and [INSERT], and for all tokens together. *)
Theorem coalesce_edits_preserves_sequences (edits : list Edit) :
  sequence1_of (coalesce_edits edits) = sequence1_of edits ∧
  sequence2_of (coalesce_edits edits) = sequence2_of edits ∧
  concat (map tokens (coalesce_edits edits)) = concat (map tokens edits).
Proof.
  split; [|split].
  - apply coalesce_edits_sequence1.
  - apply coalesce_edits_sequence2.
  - pose proof (coalesce_edits_tokens (λ _, True) edits) as H.
    by rewrite !filter_always in H.
Qed.

Lemma count_transitions_loop (l : list Edit) :
  no_adjacent_same_op l →
  ∀ k i transitions, 1 ≤ i → i + k = length l →
    for_each (range i k)
      (λ i transitions,
         a ← subscript l i;
         b ← subscript l (i - 1);
         if decide (op a ≠ op b) then mret (transitions + 1)
         else mret transitions)
      transitions = Ok (transitions + k).
Proof.
  intros Halt. induction k as [|k IH]; intros i transitions Hi Hk; simpl.
  - f_equal. lia.
  - destruct (subscript_lt l i) as (a & -> & Ha); [lia|].
    destruct (subscript_lt l (i - 1)) as (b & -> & Hb); [lia|]. rsimpl.
    rewrite decide_True.
    + rsimpl. rewrite IH by lia. f_equal. lia.
    + intros Heq. apply (Halt (i - 1) b a); [done| |done].
      by replace (S (i - 1)) with i by lia.
Qed.

(** X16: The "operation transitions" that [print_coalescing_analysis] counts
    on a coalesced script are always one less than the number of groups
    (none for the empty script); the count never raises. *)
Theorem count_transitions_coalesced (edits : list Edit) :
  count_transitions (coalesce_edits edits) =
  Ok (length (coalesce_edits edits) - 1).
Proof.
  unfold count_transitions.
  destruct (coalesce_edits edits) as [|g groups] eqn:Hc; [done|].
  rewrite count_transitions_loop.
  - done.
  - rewrite <-Hc. apply coalesce_edits_no_adjacent.
  - done.
  - simpl. lia.
Qed.

(** ** The whole comparison *)

Lemma tokenize_join (chars : bool) (text : str) :
  join_tokens (if chars then tokenize_chars text else tokenize_words text) =
  text.
Proof.
  destruct chars.
  - unfold join_tokens, tokenize_chars.
    induction text as [|c text IH]; [done|]. simpl. by rewrite IH.
  - unfold tokenize_words, join_tokens.
    pose proof (tokenize_step_join text [] []) as H.
    destruct (foldl tokenize_step _ text) as [toks current].
    simpl in H. rewrite <-H. case_bool_decide as Hc.
    + rewrite concat_app. simpl. by rewrite app_nil_r.
    + subst current. by rewrite app_nil_r.
Qed.

(** X17: In either mode, coalesced or not, the script that [main] prints spells
    both input texts: the tokens of its [EQUAL] and [DELETE] entries join
    to the first text, those of its [EQUAL] and [INSERT] entries to the
    second; any budget of at least the number of tokens gives it. *)
Theorem trace_edits_spells_texts (chars no_coalesce : bool)
    (text1 text2 : str) :
  ∃ (script : list Edit) (steps : nat),
    (∀ extra,
       trace_edits chars no_coalesce text1 text2 (steps + extra) = Ok script) ∧
    join_tokens (sequence1_of script) = text1 ∧
    join_tokens (sequence2_of script) = text2.
Proof.
  unfold trace_edits.
  set (tokens1 := if chars then tokenize_chars text1 else tokenize_words text1).
  set (tokens2 := if chars then tokenize_chars text2 else tokenize_words text2).
  destruct (compute_lcs_matrix_cells tokens1 tokens2)
    as (matrix & Hrun & Hshape & _).
  destruct (backtrack_lcs_rebuilds matrix tokens1 tokens2 Hshape)
    as (script & Hbt & H1 & H2).
  exists (if no_coalesce then script else coalesce_edits script),
         (length tokens1 + length tokens2).
  split; [|split].
  - intros extra. rewrite Hrun. rsimpl.
    rewrite (backtrack_lcs_more_fuel _ _ _ _ extra _ Hbt). rsimpl.
    by destruct no_coalesce.
  - destruct no_coalesce.
    + rewrite H1. apply tokenize_join.
    + rewrite coalesce_edits_sequence1, H1. apply tokenize_join.
  - destruct no_coalesce.
    + rewrite H2. apply tokenize_join.
    + rewrite coalesce_edits_sequence2, H2. apply tokenize_join.
Qed.

(** * Further properties of [extract_section.py] *)

Lemma split_at_first {A} (p : A → bool) (l : list A) :
  Forall (λ x, p x = false) l ∨
  ∃ pre x post, l = pre ++ x :: post ∧ Forall (λ x, p x = false) pre ∧
                p x = true.
Proof.
  induction l as [|a l IH]; [by left|].
  destruct (p a) eqn:Ha.
  - right. exists [], a, l. by repeat split.
  - destruct IH as [IH|(pre & x & post & -> & Hpre & Hx)].
    + left. by constructor.
    + right. exists (a :: pre), x, post. repeat split; [|done]. by constructor.
Qed.

Lemma find_section_not_found {U : Unicode} {ET : ElementTree}
    (root : Element) (section_id : str) :
  Forall (λ p, starts_with_section (get_paragraph_text p) section_id = false)
    (find_paragraphs root) →
  find_section root section_id = [].
Proof.
  intros Hnone. unfold find_section.
  rewrite <-(app_nil_r (find_paragraphs root)).
  by rewrite find_section_loop_before.
Qed.

Lemma find_section_found {U : Unicode} {ET : ElementTree}
    (root : Element) (section_id : str) pre start post :
  find_paragraphs root = pre ++ start :: post →
  Forall (λ p, starts_with_section (get_paragraph_text p) section_id = false)
    pre →
  starts_with_section (get_paragraph_text start) section_id = true →
  ∃ included rest,
    post = included ++ rest ∧ find_section root section_id = start :: included.
Proof.
  intros Hparas Hpre Hstart. unfold find_section. rewrite Hparas.
  rewrite find_section_loop_before by done.
  cbn [find_section_loop fs_found fs_result negb]. rewrite Hstart.
  destruct (get_section_level (get_paragraph_text start)) as [level stype].
  destruct (find_section_loop_after section_id level stype post ([] ++ [start]))
    as (included & rest & Hpost & Hres & _).
  exists included, rest. by rewrite Hres.
Qed.

(** X18: [find_section] returns no paragraph exactly when no paragraph of the
    document starts with the section id (the case that
    [extract_from_docx] reports as "No match found"). *)
Theorem find_section_empty_iff {U : Unicode} {ET : ElementTree}
    (root : Element) (section_id : str) :
  find_section root section_id = [] ↔
  Forall (λ p, starts_with_section (get_paragraph_text p) section_id = false)
    (find_paragraphs root).
Proof.
  split; [|apply find_section_not_found].
  intros Hempty.
  destruct (split_at_first
              (λ p, starts_with_section (get_paragraph_text p) section_id)
              (find_paragraphs root))
    as [Hnone|(pre & start & post & Hparas & Hpre & Hstart)]; [done|].
  destruct (find_section_found root section_id pre start post Hparas Hpre Hstart)
    as (included & rest & _ & Hres).
  by rewrite Hres in Hempty.
Qed.

(** X19: The paragraphs that [find_section] returns are consecutive paragraphs
    of the document, in document order. *)
Theorem find_section_segment {U : Unicode} {ET : ElementTree}
    (root : Element) (section_id : str) :
  ∃ before after,
    find_paragraphs root = before ++ find_section root section_id ++ after.
Proof.
  destruct (split_at_first
              (λ p, starts_with_section (get_paragraph_text p) section_id)
              (find_paragraphs root))
    as [Hnone|(pre & start & post & Hparas & Hpre & Hstart)].
  - rewrite find_section_not_found by done.
    by exists [], (find_paragraphs root).
  - destruct (find_section_found root section_id pre start post Hparas Hpre Hstart)
      as (included & rest & -> & ->).
    exists pre, rest. by rewrite Hparas.
Qed.

(** ** Paragraph queries *)

Lemma find_paragraph_by_text_loop_before {U : Unicode} {ET : ElementTree}
    search_lower pre paragraphs result :
  Forall (λ p, ¬ search_lower `prefix_of`
                   lstrip (lower (get_paragraph_text p))) pre →
  find_paragraph_by_text_loop search_lower (pre ++ paragraphs) result false =
  find_paragraph_by_text_loop search_lower paragraphs result false.
Proof.
  induction 1 as [|p pre Hp _ IH]; [done|]. simpl.
  by rewrite bool_decide_eq_false_2.
Qed.

Lemma find_paragraph_by_text_loop_after {U : Unicode} {ET : ElementTree}
    search_lower : ∀ post result,
  ∃ included rest,
    post = included ++ rest ∧
    find_paragraph_by_text_loop search_lower post result true =
      result ++ included ∧
    Forall (λ p, is_section_start (get_paragraph_text p) = false) included ∧
    (rest = [] ∨
     ∃ b rest', rest = b :: rest' ∧
       is_section_start (get_paragraph_text b) = true).
Proof.
  induction post as [|p post IH]; intros result.
  - exists [], []. simpl. rewrite app_nil_r.
    repeat split; [constructor|by left].
  - cbn [find_paragraph_by_text_loop negb].
    destruct (is_section_start (get_paragraph_text p)) eqn:Hm.
    + exists [], (p :: post). simpl. rewrite app_nil_r.
      repeat split; [constructor|]. right. by exists p, post.
    + destruct (IH (result ++ [p])) as (included & rest & -> & Hres & Hall & Hrest).
      exists (p :: included), rest. rewrite Hres, <-app_assoc.
      repeat split; [|done]. by constructor.
Qed.

(** X20: [find_paragraph_by_text] starts at the first paragraph whose
    lower-cased, left-stripped text begins with the lower-cased search
    text, and returns it with the paragraphs after it up to, and without,
    the next paragraph that starts with a section marker. *)
Theorem find_paragraph_by_text_extent {U : Unicode} {ET : ElementTree}
    (root : Element) (search_text : str) (pre : list Element)
    (start : Element) (post : list Element) :
  find_paragraphs root = pre ++ start :: post →
  Forall (λ p, ¬ lower search_text `prefix_of`
                   lstrip (lower (get_paragraph_text p))) pre →
  lower search_text `prefix_of` lstrip (lower (get_paragraph_text start)) →
  ∃ included rest,
    post = included ++ rest ∧
    find_paragraph_by_text root search_text = start :: included ∧
    Forall (λ p, is_section_start (get_paragraph_text p) = false) included ∧
    (rest = [] ∨
     ∃ b rest', rest = b :: rest' ∧
       is_section_start (get_paragraph_text b) = true).
Proof.
  intros Hparas Hpre Hstart. unfold find_paragraph_by_text. rewrite Hparas.
  rewrite find_paragraph_by_text_loop_before by done.
  cbn [find_paragraph_by_text_loop negb].
  rewrite bool_decide_eq_true_2 by done.
  destruct (find_paragraph_by_text_loop_after (lower search_text) post
              ([] ++ [start]))
    as (included & rest & Hpost & Hres & Hall & Hrest).
  exists included, rest. by rewrite Hres.
Qed.

(** The paragraph of the lease that begins with "is due". *)
Lemma find_paragraph_by_text_extent_witness :
  ∃ included rest,
    [XPara [py "(a) in advance"]; XPara [py "3.2 Term"]] = included ++ rest ∧
    find_paragraph_by_text (U := ascii_unicode) (ET := toy_tree lease_files)
      lease_root (py "Is Due") = XPara [py "is due monthly"] :: included ∧
    Forall (λ p, is_section_start (U := ascii_unicode)
                   (get_paragraph_text (ET := toy_tree lease_files) p) = false)
      included ∧
    (rest = [] ∨
     ∃ b rest', rest = b :: rest' ∧
       is_section_start (U := ascii_unicode)
         (get_paragraph_text (ET := toy_tree lease_files) b) = true).
Proof.
  apply (find_paragraph_by_text_extent (U := ascii_unicode)
           (ET := toy_tree lease_files) lease_root (py "Is Due")
           [XPara [py "3.1 Rent"]] (XPara [py "is due monthly"])
           [XPara [py "(a) in advance"]; XPara [py "3.2 Term"]]).
  - reflexivity.
  - apply Forall_singleton.
    apply (bool_decide_eq_false_1 (_ `prefix_of` _)). reflexivity.
  - apply (bool_decide_eq_true_1 (_ `prefix_of` _)). reflexivity.
Defined.

Example find_paragraph_by_text_lease :
  find_paragraph_by_text (U := ascii_unicode) (ET := toy_tree lease_files)
    lease_root (py "Is Due") = [XPara [py "is due monthly"]].
Proof. reflexivity. Qed.

(** ** Notes and elements *)

(** X21: [find_footnote] and [find_endnote] return the first note whose id
    attribute equals the id asked for, alone, and nothing when no note has
    that id; a note without id attribute never matches. *)
Theorem find_note_first_match {ET : ElementTree} {EQ : ElementQueries ET}
    (root : Element) (note_id : str) :
  ((find_footnote root note_id = [] ∧
    Forall (λ n, get_id n ≠ Some note_id) (iter_footnote root)) ∨
   (∃ pre note post,
      iter_footnote root = pre ++ note :: post ∧
      Forall (λ n, get_id n ≠ Some note_id) pre ∧
      get_id note = Some note_id ∧
      find_footnote root note_id = [note])) ∧
  ((find_endnote root note_id = [] ∧
    Forall (λ n, get_id n ≠ Some note_id) (iter_endnote root)) ∨
   (∃ pre note post,
      iter_endnote root = pre ++ note :: post ∧
      Forall (λ n, get_id n ≠ Some note_id) pre ∧
      get_id note = Some note_id ∧
      find_endnote root note_id = [note])).
Proof.
  unfold find_footnote, find_endnote.
  split; [generalize (iter_footnote root)|generalize (iter_endnote root)];
    intros notes.
  all: induction notes as [|n notes IH]; [by left|]; simpl.
  all: case_bool_decide as Hid;
    [right; exists [], n, notes; by repeat split|].
  all: destruct IH as [[Hr Hall]|(pre & note & post & -> & Hpre & Hnote & Hr)];
    [left; split; [done|]; by constructor|].
  all: right; exists (n :: pre), note, post; repeat split; [|done..];
    by constructor.
Qed.

Lemma min_by_key_least {A} (key : A → nat) (l : list A) : ∀ x,
  min_by_key key x l ∈ x :: l ∧
  ∀ e, e ∈ x :: l → key (min_by_key key x l) ≤ key e.
Proof.
  unfold min_by_key. induction l as [|a l IH]; intros x; simpl.
  - split; [by left|]. intros e ->%list_elem_of_singleton. done.
  - destruct (IH (if bool_decide (key a < key x) then a else x)) as [Hin Hmin].
    split.
    + apply elem_of_cons in Hin as [Hin|Hin].
      * rewrite Hin. case_bool_decide; [right; by left|by left].
      * by do 2 right.
    + intros e He.
      assert (key (if bool_decide (key a < key x) then a else x) ≤ key a ∧
              key (if bool_decide (key a < key x) then a else x) ≤ key x)
        as [Ha Hx] by (case_bool_decide; lia).
      pose proof (Hmin _ (list_elem_of_here _ _)) as H0.
      apply elem_of_cons in He as [->|He]; [lia|].
      apply elem_of_cons in He as [->|He]; [lia|].
      apply Hmin. by right.
Qed.

(** X22: [find_element_by_text] returns nothing when no element's text contains
    the search text (case-folded with [lower]); otherwise it returns one
    element of the tree whose text contains it and that has no more
    descendants than any other such element. *)
Theorem find_element_by_text_smallest {U : Unicode} {ET : ElementTree}
    {EQ : ElementQueries ET} (root : Element) (search_text : str) :
  let hit e := str_contains (lower search_text)
                 (lower (get_paragraph_text e)) = true in
  (find_element_by_text root search_text = [] ∧
   Forall (λ e, ¬ hit e) (iter_all root)) ∨
  (∃ best,
     find_element_by_text root search_text = [best] ∧
     best ∈ iter_all root ∧ hit best ∧
     ∀ e, e ∈ iter_all root → hit e →
          length (iter_all best) ≤ length (iter_all e)).
Proof.
  intros hit. unfold find_element_by_text. fold hit.
  destruct (filter hit (iter_all root)) as [|m ms] eqn:Hf.
  - left. split; [done|]. apply Forall_forall. intros e He Hhit.
    assert (e ∈ filter hit (iter_all root)) as Hin
      by by apply list_elem_of_filter.
    rewrite Hf in Hin. by apply elem_of_nil in Hin.
  - right. destruct (min_by_key_least (λ e, length (iter_all e)) ms m)
      as [Hin Hmin].
    eexists. split; [reflexivity|].
    rewrite <-Hf in Hin. apply list_elem_of_filter in Hin as [Hhit Hin].
    repeat split; [done..|].
    intros e He Hhite. apply Hmin. rewrite <-Hf. by apply list_elem_of_filter.
Qed.

(** ** The two section lookups together *)




(** * The matcher and the marker patterns *)

(** ** The matcher finds what the patterns match *)

(** Soundness: a successful run consumed a text that the pattern matches
    and handed the rest to the continuation. *)
Lemma rmatch_sound {A} (r : regex) : ∀ s (k : str → option A) x,
  rmatch r s k = Some x →
  ∃ w s', s = w ++ s' ∧ matches r w s' ∧ k s' = Some x.
Proof.
  induction r as [|p|r1 IH1 r2 IH2|r1 IH1 r2 IH2|r1 IH1|]; intros s k x Hrun.
  - exists [], s. repeat split; [constructor|done].
  - destruct s as [|c s]; [done|]. simpl in Hrun.
    destruct (p c) eqn:Hc; [|done].
    exists [c], s. repeat split; [by constructor|done].
  - rewrite rmatch_Cat in Hrun.
    apply IH1 in Hrun as (w1 & s1 & -> & Hm1 & Hrun).
    apply IH2 in Hrun as (w2 & s2 & -> & Hm2 & Hk).
    exists (w1 ++ w2), s2. rewrite <-app_assoc.
    repeat split; [by constructor|done].
  - rewrite rmatch_Alt in Hrun.
    destruct (rmatch r1 s k) as [y|] eqn:E1.
    + injection Hrun as ->.
      apply IH1 in E1 as (w & s' & -> & Hm & Hk).
      exists w, s'. repeat split; [by apply matches_Alt_l|done].
    + apply IH2 in Hrun as (w & s' & -> & Hm & Hk).
      exists w, s'. repeat split; [by apply matches_Alt_r|done].
  - rewrite rmatch_Star in Hrun. revert Hrun. generalize (length s) at 1.
    intros n. revert s. induction n as [|n IHn]; intros s Hrun; simpl in Hrun.
    + exists [], s. repeat split; [constructor|done].
    + destruct (rmatch r1 s _) as [y|] eqn:E1.
      * injection Hrun as ->.
        apply IH1 in E1 as (w1 & s1 & -> & Hm1 & Hk1).
        case_bool_decide as Hlen; [|done].
        apply IHn in Hk1 as (w2 & s2 & -> & Hm2 & Hk).
        exists (w1 ++ w2), s2. rewrite <-app_assoc.
        repeat split; [|done]. constructor; [|done..].
        intros ->. simpl in Hlen. lia.
      * exists [], s. repeat split; [constructor|done].
  - simpl in Hrun. case_bool_decide as Hs; [|done].
    exists [], s. repeat split; [by constructor|done].
Qed.

Lemma rmatch_none {A} (r : regex) s (k : str → option A) :
  (∀ s', length s' ≤ length s → k s' = None) → rmatch r s k = None.
Proof.
  intros Hk. destruct (rmatch r s k) as [x|] eqn:E; [|done].
  apply rmatch_sound in E as (w & s' & -> & _ & Hks).
  rewrite Hk in Hks; [done|]. rewrite length_app. lia.
Qed.

(** The matcher looks at its continuation only on texts that are not
    longer than its own. *)
Lemma rmatch_ext {A} (r : regex) : ∀ s (k k' : str → option A),
  (∀ s', length s' ≤ length s → k s' = k' s') →
  rmatch r s k = rmatch r s k'.
Proof.
  induction r as [|p|r1 IH1 r2 IH2|r1 IH1 r2 IH2|r1 IH1|]; intros s k k' Hk.
  - by apply Hk.
  - destruct s as [|c s]; [done|]. simpl.
    destruct (p c); [|done]. apply Hk. simpl. lia.
  - rewrite !rmatch_Cat. apply IH1. intros s1 Hs1. apply IH2.
    intros s2 Hs2. apply Hk. lia.
  - rewrite !rmatch_Alt. by rewrite (IH1 s k k'), (IH2 s k k').
  - rewrite !rmatch_Star. generalize (length s) at 1 2. intros n.
    revert s Hk. induction n as [|n IHn]; intros s Hk; simpl.
    + by apply Hk.
    + rewrite (IH1 s _ (λ s', if bool_decide (length s' < length s)
                             then star_loop (rmatch r1) k' n s' else None)).
      * by rewrite (Hk s).
      * intros s1 Hs1. case_bool_decide; [|done].
        apply IHn. intros s2 Hs2. apply Hk. lia.
  - simpl. case_bool_decide; [|done]. by apply Hk.
Qed.

(** More rounds than characters change nothing. *)
Lemma star_loop_fuel {A} (r : regex) (k : str → option A) : ∀ n1 n2 s,
  length s ≤ n1 → length s ≤ n2 →
  star_loop (rmatch r) k n1 s = star_loop (rmatch r) k n2 s.
Proof.
  assert (∀ n s, length s = 0 →
            star_loop (rmatch r) k n s = k s) as Hempty.
  { intros [|n] s Hs; simpl; [done|].
    rewrite rmatch_none; [done|].
    intros s' Hs'. rewrite bool_decide_eq_false_2 by lia. done. }
  induction n1 as [|n1 IH]; intros n2 s H1 H2.
  { rewrite !Hempty by lia. done. }
  destruct n2 as [|n2].
  { rewrite !Hempty by lia. done. }
  simpl.
  rewrite (rmatch_ext r s _ (λ s', if bool_decide (length s' < length s)
                               then star_loop (rmatch r) k n2 s' else None)).
  { done. }
  intros s1 Hs1. case_bool_decide; [|done]. apply IH; lia.
Qed.

(** Completeness: when the pattern matches a prefix and the continuation
    accepts the rest, the run succeeds (possibly with another match that
    the continuation accepts too). *)
Lemma rmatch_complete {A} (r : regex) w s' :
  matches r w s' →
  ∀ k : str → option A, is_Some (k s') → is_Some (rmatch r (w ++ s') k).
Proof.
  induction 1 as [s|p c s Hc|r1 r2 w1 w2 s _ IH1 _ IH2|r1 r2 w s _ IH
                  |r1 r2 w s _ IH|r s|r w1 w2 s Hne _ IH1 _ IH2|s Hs];
    intros k Hk.
  - done.
  - simpl. by rewrite Hc.
  - rewrite <-app_assoc, rmatch_Cat. apply IH1, IH2, Hk.
  - rewrite rmatch_Alt. destruct (IH k Hk) as [x ->]. by eexists.
  - rewrite rmatch_Alt. destruct (rmatch r1 (w ++ s) k); [by eexists|].
    by apply IH.
  - rewrite rmatch_Star. simpl. destruct (length s); simpl; [done|].
    destruct (rmatch r s _); [by eexists|done].
  - rewrite rmatch_Star, <-app_assoc.
    destruct (length (w1 ++ w2 ++ s)) as [|n] eqn:Hn.
    { destruct w1; [done|]. simpl in Hn. lia. }
    simpl.
    destruct (IH1 (λ s1, if bool_decide (length s1 < length (w1 ++ w2 ++ s))
                         then star_loop (rmatch r) k n s1 else None))
      as [x ->]; [|by eexists].
    rewrite bool_decide_eq_true_2.
    + specialize (IH2 k Hk). rewrite rmatch_Star in IH2.
      rewrite (star_loop_fuel r k n (length (w2 ++ s))); [done| |done].
      rewrite length_app in Hn. destruct w1; [done|]. simpl in Hn. lia.
    + rewrite (length_app w1). destruct w1; [done|]. simpl. lia.
  - simpl. by rewrite bool_decide_eq_true_2.
Qed.

Lemma matches_accepts r w s :
  matches r w s → Forall (λ c, accepts_char r c = true) w.
Proof.
  induction 1 as [s|p c s Hc|r1 r2 w1 w2 s _ IH1 _ IH2|r1 r2 w s _ IH
                  |r1 r2 w s _ IH|r s|r w1 w2 s Hne _ IH1 _ IH2|s Hs]; simpl.
  - constructor.
  - by apply Forall_singleton.
  - apply Forall_app. split.
    + eapply Forall_impl; [exact IH1|]. intros c Hc. simpl in Hc. by rewrite Hc.
    + eapply Forall_impl; [exact IH2|]. intros c Hc. simpl in Hc.
      rewrite Hc. apply orb_true_r.
  - eapply Forall_impl; [exact IH|]. intros c Hc. simpl in Hc. by rewrite Hc.
  - eapply Forall_impl; [exact IH|]. intros c Hc. simpl in Hc.
    rewrite Hc. apply orb_true_r.
  - constructor.
  - apply Forall_app. split; [exact IH1|exact IH2].
  - constructor.
Qed.

Lemma matches_nil_nullable r s : matches r [] s → nullable r = true.
Proof.
  intros H. remember [] as w eqn:Hw. revert Hw.
  induction H as [s|p c s Hc|r1 r2 w1 w2 s _ IH1 _ IH2|r1 r2 w s _ IH
                  |r1 r2 w s _ IH|r s|r w1 w2 s Hne _ IH1 _ IH2|s Hs];
    intros Hw; simpl; try done.
  - apply app_eq_nil in Hw as [-> ->]. by rewrite IH1, IH2.
  - by rewrite IH.
  - rewrite IH by done. apply orb_true_r.
Qed.

Lemma matches_any_rest r w s s' :
  dollar_free r = true → matches r w s → matches r w s'.
Proof.
  intros Hdf H. revert s' Hdf.
  induction H as [s|p c s Hc|r1 r2 w1 w2 s _ IH1 _ IH2|r1 r2 w s _ IH
                  |r1 r2 w s _ IH|r s|r w1 w2 s Hne _ IH1 _ IH2|s Hs];
    intros s' Hdf; simpl in Hdf; try done.
  - constructor.
  - by constructor.
  - apply andb_prop in Hdf as [H1 H2]. constructor; [by apply IH1|by apply IH2].
  - apply andb_prop in Hdf as [H1 H2]. apply matches_Alt_l. by apply IH.
  - apply andb_prop in Hdf as [H1 H2]. apply matches_Alt_r. by apply IH.
  - constructor.
  - constructor; [done|by apply IH1|by apply IH2].
Qed.

Lemma matches_weaker r w s :
  matches r w s → ∀ r', weaker r r' → matches r' w s.
Proof.
  induction 1 as [s|p c s Hc|r1 r2 w1 w2 s _ IH1 _ IH2|r1 r2 w s _ IH
                  |r1 r2 w s _ IH|r s|r w1 w2 s Hne _ IH1 _ IH2|s Hs];
    intros r' Hw; destruct r'; simpl in Hw; try done.
  - constructor.
  - constructor. by apply Hw.
  - destruct Hw. constructor; [by apply IH1|by apply IH2].
  - destruct Hw. apply matches_Alt_l. by apply IH.
  - destruct Hw. apply matches_Alt_r. by apply IH.
  - constructor.
  - constructor; [done|by apply IH1|]. by apply (IH2 (Star r')).
  - by constructor.
Qed.

(** ** Markers *)

Lemma re_match_complete r g s :
  dollar_free r = true → matches r g s → re_match (Cat r Dollar) g = true.
Proof.
  intros Hdf Hm. unfold re_match. apply bool_decide_eq_true_2.
  rewrite <-(app_nil_r g). apply rmatch_complete; [|by eexists].
  rewrite <-(app_nil_r g). constructor.
  - by apply (matches_any_rest r g s).
  - constructor. by left.
Qed.

(** What a successful match of the section pattern consumed. *)
Lemma SECTION_PATTERN_match_sound {U : Unicode} text g :
  SECTION_PATTERN_match text = Some g →
  ∃ ws wp rest,
    text = ws ++ g ++ wp ++ rest ∧
    matches (Star (Cls ws_class)) ws (g ++ wp ++ rest) ∧
    matches re_marker g (wp ++ rest) ∧
    matches (Plus (Cls ws_class)) wp rest.
Proof.
  unfold SECTION_PATTERN_match. intros Hrun.
  apply rmatch_sound in Hrun as (ws & s1 & -> & Hws & Hrun).
  apply rmatch_sound in Hrun as (wm & s2 & -> & Hwm & Hrun).
  apply rmatch_sound in Hrun as (wp & s3 & -> & Hwp & Hg).
  injection Hg as <-.
  replace (length (wm ++ wp ++ s3) - length (wp ++ s3)) with (length wm)
    by (rewrite (length_app wm); lia).
  rewrite take_app_length.
  by exists ws, wp, s3.
Qed.

Lemma lower_roman_is_ascii_letter c :
  in_chars "ivxlcdm" c = true → is_ascii_letter c = true.
Proof.
  intros H. apply bool_decide_eq_true in H. cbn in H.
  repeat (apply elem_of_cons in H as [->|H]; [reflexivity|]).
  by apply elem_of_nil in H.
Qed.

Lemma re_marker_chars {U : Unicode} c :
  accepts_char re_marker c = true →
  isdecimal c = true ∨ c ∈ py ".()" ∨ is_ascii_letter c = true.
Proof.
  unfold re_marker, re_numeric, re_alpha_paren, re_roman_paren, re_alpha_dot,
    re_roman_dot, Plus, Opt.
  cbn -[is_ascii_letter in_chars]. intros H.
  repeat (apply orb_prop in H as [H|H]); try done; auto;
    try (apply bool_decide_eq_true in H; subst c; right; left; cbn;
         repeat first [apply list_elem_of_here | apply list_elem_of_further]);
    try (right; right; first [by apply roman_letter_is_ascii_letter
                             | by apply lower_roman_is_ascii_letter]);
    right; right; unfold is_ascii_letter; rewrite H; by rewrite ?orb_true_r.
Qed.

Lemma drop_while_none {A} (p : A → bool) (l : list A) :
  Forall (λ x, p x = false) l → drop_while p l = l.
Proof. intros [|x l' Hx _]; [done|]. simpl. by rewrite Hx. Qed.

Lemma strip_no_space {U : Unicode} (g : str) :
  Forall (λ c, isspace c = false) g → strip g = g.
Proof.
  intros Hg. unfold strip, rstrip, lstrip.
  rewrite (drop_while_none _ g) by done.
  rewrite drop_while_none by by apply Forall_reverse.
  apply reverse_involutive.
Qed.

Lemma ws_class_false {U : Unicode} c : ws_class c = false → isspace c = false.
Proof. unfold ws_class. by intros [? _]%orb_false_elim. Qed.

Lemma marker_no_space {U : Unicode} g s :
  python_tables U → matches re_marker g s →
  g ≠ [] ∧ Forall (λ c, ws_class c = false) g.
Proof.
  intros (Hdig & Hpunct & _) Hm. split.
  - intros ->. by apply matches_nil_nullable in Hm.
  - eapply Forall_impl; [exact (matches_accepts _ _ _ Hm)|].
    intros c [Hc|Hc]%re_marker_chars; [by apply Hdig|by apply Hpunct].
Qed.

Lemma re_roman_paren_weaker {U : Unicode} :
  python_tables U → weaker re_roman_paren re_roman_paren_ignorecase.
Proof. intros (_ & _ & _ & Hroman). simpl. repeat split; auto. Qed.

(** X24: A paragraph is a section start exactly when [get_section_level] gives
    it a type: the marker found by the pattern passes one of the five
    tests, so the level is at least 1 and the last [return (0, '')] is
    never reached; without a marker the result is [(0, '')]. *)
Theorem get_section_level_classifies {U : Unicode} (text : str) :
  python_tables U →
  (is_section_start text = true →
   1 ≤ (get_section_level text).1 ∧
   (get_section_level text).2 ∈
     ["numeric"; "alpha_paren"; "roman_paren"; "alpha_dot"; "roman_dot"]%string) ∧
  (is_section_start text = false → get_section_level text = (0, ""%string)).
Proof.
  intros Htab. unfold is_section_start, get_section_level.
  destruct (SECTION_PATTERN_match text) as [g|] eqn:Hmatch; split;
    try done.
  - intros _.
    apply SECTION_PATTERN_match_sound in Hmatch
      as (ws & wp & rest & _ & _ & Hg & _).
    destruct (marker_no_space g _ Htab Hg) as [_ Hns].
    rewrite strip_no_space
      by (eapply Forall_impl; [exact Hns|apply ws_class_false]).
    destruct (re_match (Cat re_numeric Dollar) g) eqn:E1.
    { simpl. split; [lia|]. apply list_elem_of_here. }
    destruct (re_match (Cat re_alpha_paren Dollar) g) eqn:E2.
    { simpl. split; [lia|]. do 1 apply list_elem_of_further.
      apply list_elem_of_here. }
    destruct (re_match (Cat re_roman_paren_ignorecase Dollar) g) eqn:E3.
    { simpl. split; [lia|]. do 2 apply list_elem_of_further.
      apply list_elem_of_here. }
    destruct (re_match (Cat re_alpha_dot Dollar) g) eqn:E4.
    { simpl. split; [lia|]. do 3 apply list_elem_of_further.
      apply list_elem_of_here. }
    destruct (re_match (Cat re_roman_dot Dollar) g) eqn:E5.
    { simpl. split; [lia|]. do 4 apply list_elem_of_further.
      apply list_elem_of_here. }
    exfalso. unfold re_marker in Hg.
    inversion Hg as [| | |? ? ? ? H1|? ? ? ? H1| | |]; subst.
    { by rewrite (re_match_complete re_numeric _ _ eq_refl H1) in E1. }
    inversion H1 as [| | |? ? ? ? H2|? ? ? ? H2| | |]; subst.
    { by rewrite (re_match_complete re_alpha_paren _ _ eq_refl H2) in E2. }
    inversion H2 as [| | |? ? ? ? H3|? ? ? ? H3| | |]; subst.
    { apply (λ H, matches_weaker _ _ _ H _ (re_roman_paren_weaker Htab)) in H3.
      by rewrite (re_match_complete re_roman_paren_ignorecase _ _ eq_refl H3)
        in E3. }
    inversion H3 as [| | |? ? ? ? H4|? ? ? ? H4| | |]; subst.
    { by rewrite (re_match_complete re_alpha_dot _ _ eq_refl H4) in E4. }
    by rewrite (re_match_complete re_roman_dot _ _ eq_refl H4) in E5.
Qed.

(** X25: The marker that the pattern finds is the first word of the paragraph:
    it is not empty, holds no white space, follows leading white space
    only, and is followed by a white-space character. *)
Theorem SECTION_PATTERN_marker_is_first_word {U : Unicode} (text g : str) :
  python_tables U →
  SECTION_PATTERN_match text = Some g →
  g ≠ [] ∧ Forall (λ c, ws_class c = false) g ∧
  ∃ ws w rest,
    text = ws ++ g ++ w :: rest ∧
    Forall (λ c, ws_class c = true) ws ∧ ws_class w = true.
Proof.
  intros Htab Hmatch.
  apply SECTION_PATTERN_match_sound in Hmatch
    as (ws & wp & rest & -> & Hws & Hg & Hwp).
  destruct (marker_no_space g _ Htab Hg) as [Hne Hns].
  split; [done|]. split; [done|].
  pose proof (matches_accepts _ _ _ Hws) as Hws'. simpl in Hws'.
  pose proof (matches_accepts _ _ _ Hwp) as Hwp'. simpl in Hwp'.
  destruct wp as [|w wp]; [by apply matches_nil_nullable in Hwp|].
  apply Forall_cons in Hwp' as [Hw _]. rewrite orb_diag in Hw.
  by exists ws, w, (wp ++ rest).
Qed.

Lemma ascii_unicode_tables : python_tables ascii_unicode.
Proof.
  assert (∀ c : char, (c < 9 ∨ 13 < c)%N → (c < 28 ∨ 32 < c)%N →
            c ≠ 133%N → c ≠ 160%N →
            ws_class (U := ascii_unicode) c = false) as Hws.
  { intros c H1 H2 H3 H4. unfold ws_class. simpl.
    apply orb_false_intro; apply bool_decide_eq_false_2; [|done].
    intros Hin.
    repeat (apply elem_of_cons in Hin as [->|Hin]; [lia|]).
    by apply elem_of_nil in Hin. }
  repeat split.
  - intros c [H1 H2]%andb_prop.
    apply bool_decide_eq_true in H1, H2. apply Hws; lia.
  - intros c [Hc|Hc].
    + cbn in Hc.
      repeat (apply elem_of_cons in Hc as [->|Hc]; [by apply Hws; lia|]).
      by apply elem_of_nil in Hc.
    + unfold is_ascii_letter in Hc.
      apply orb_prop in Hc as [[H1 H2]%andb_prop|[H1 H2]%andb_prop];
        apply bool_decide_eq_true in H1, H2; apply Hws; lia.
  - intros c Hc. apply bool_decide_eq_true in Hc. cbn in Hc.
    repeat (apply elem_of_cons in Hc as [->|Hc]; [reflexivity|]).
    by apply elem_of_nil in Hc.
Qed.

Lemma get_section_level_classifies_witness :
  (is_section_start (U := ascii_unicode) (py "3.1 Rent") = true →
   1 ≤ (get_section_level (U := ascii_unicode) (py "3.1 Rent")).1 ∧
   (get_section_level (U := ascii_unicode) (py "3.1 Rent")).2 ∈
     ["numeric"; "alpha_paren"; "roman_paren"; "alpha_dot"; "roman_dot"]%string) ∧
  (is_section_start (U := ascii_unicode) (py "3.1 Rent") = false →
   get_section_level (U := ascii_unicode) (py "3.1 Rent") = (0, ""%string)).
Proof.
  apply (get_section_level_classifies (U := ascii_unicode) (py "3.1 Rent")).
  exact ascii_unicode_tables.
Defined.

Lemma SECTION_PATTERN_marker_is_first_word_witness :
  py "3.1" ≠ [] ∧
  Forall (λ c, ws_class (U := ascii_unicode) c = false) (py "3.1") ∧
  ∃ ws w rest,
    py "  3.1 Rent" = ws ++ py "3.1" ++ w :: rest ∧
    Forall (λ c, ws_class (U := ascii_unicode) c = true) ws ∧
    ws_class (U := ascii_unicode) w = true.
Proof.
  apply (SECTION_PATTERN_marker_is_first_word (U := ascii_unicode)
           (py "  3.1 Rent") (py "3.1"));
    [exact ascii_unicode_tables | reflexivity].
Defined.

(** ** Numeric markers *)

Lemma matches_star_cls (p : char → bool) (l : str) s :
  Forall (λ c, p c = true) l → matches (Star (Cls p)) l s.
Proof.
  induction 1 as [|c l Hc _ IH]; [constructor|].
  change (c :: l) with ([c] ++ l). constructor; [done|by constructor|done].
Qed.

Lemma matches_plus_cls (p : char → bool) (l : str) s :
  l ≠ [] → Forall (λ c, p c = true) l → matches (Plus (Cls p)) l s.
Proof.
  intros Hne Hall. destruct l as [|c l]; [done|].
  apply Forall_cons in Hall as [Hc Hall].
  change (c :: l) with ([c] ++ l). unfold Plus.
  constructor; [by constructor|by apply matches_star_cls].
Qed.

Lemma matches_lit_dot s : matches (Lit ".") [46%N] s.
Proof.
  change [46%N] with ([46%N] ++ []). change (Lit ".") with
    (Cat (Cls (λ y, bool_decide (y = 46%N))) Eps).
  constructor; [by constructor|constructor].
Qed.

Lemma matches_numeric_marker {U : Unicode} g1 gs dot s :
  g1 ≠ [] → Forall (λ c, isdecimal c = true) g1 →
  Forall (λ g, g ≠ [] ∧ Forall (λ c, isdecimal c = true) g) gs →
  matches re_numeric (numeric_marker_text g1 gs dot) s.
Proof.
  intros Hne Hg1 Hgs. unfold re_numeric, numeric_marker_text.
  constructor; [by apply matches_plus_cls|].
  constructor.
  - induction Hgs as [|g gs [Hg Hd] _ IH]; [constructor|].
    cbn [map concat]. constructor; [done| |exact IH].
    change (46%N :: g) with ([46%N] ++ g).
    constructor; [apply matches_lit_dot|by apply matches_plus_cls].
  - destruct dot.
    + apply matches_Alt_l, matches_lit_dot.
    + apply matches_Alt_r. constructor.
Qed.

Lemma span_unique {A} (p : A → bool) (l1 : list A) : ∀ l1' x x' l2 l2',
  Forall (λ a, p a = true) l1 → Forall (λ a, p a = true) l1' →
  p x = false → p x' = false →
  l1 ++ x :: l2 = l1' ++ x' :: l2' →
  l1 = l1' ∧ x :: l2 = x' :: l2'.
Proof.
  induction l1 as [|a l1 IH]; intros l1' x x' l2 l2' H1 H1' Hx Hx' Heq.
  - destruct l1' as [|a' l1']; [done|].
    apply Forall_cons in H1' as [Ha' _]. simpl in Heq.
    injection Heq as -> _. congruence.
  - apply Forall_cons in H1 as [Ha H1].
    destruct l1' as [|a' l1'].
    + simpl in Heq. injection Heq as -> _. congruence.
    + apply Forall_cons in H1' as [_ H1']. simpl in Heq.
      injection Heq as -> Heq.
      destruct (IH _ _ _ _ _ H1 H1' Hx Hx' Heq) as [-> ?]. done.
Qed.

Lemma count_char_app c l1 l2 :
  count_char c (l1 ++ l2) = count_char c l1 + count_char c l2.
Proof. unfold count_char. by rewrite filter_app, length_app. Qed.

Lemma count_char_none c l :
  Forall (λ x, x ≠ c) l → count_char c l = 0.
Proof.
  unfold count_char. induction 1 as [|x l Hx _ IH]; [done|].
  by rewrite filter_cons_False.
Qed.

Lemma rstrip_char_snoc_other c l x :
  x ≠ c → rstrip_char c (l ++ [x]) = l ++ [x].
Proof.
  intros Hx. unfold rstrip_char. rewrite reverse_snoc. simpl.
  rewrite bool_decide_eq_false_2 by done.
  by rewrite reverse_cons, reverse_involutive.
Qed.

Lemma rstrip_char_snoc_same c l :
  rstrip_char c (l ++ [c]) = rstrip_char c l.
Proof.
  unfold rstrip_char. rewrite reverse_snoc. simpl.
  by rewrite bool_decide_eq_true_2.
Qed.

Lemma numeric_core_ends_with_digit {U : Unicode} g1 gs :
  g1 ≠ [] → Forall (λ c, isdecimal c = true) g1 →
  Forall (λ g, g ≠ [] ∧ Forall (λ c, isdecimal c = true) g) gs →
  ∃ l d, g1 ++ concat (map (λ g, 46%N :: g) gs) = l ++ [d] ∧
         isdecimal d = true.
Proof.
  intros Hne Hg1 Hgs.
  destruct gs as [|gl gs _] using rev_ind.
  - simpl. rewrite app_nil_r.
    destruct g1 as [|d g1 _] using rev_ind; [done|].
    apply Forall_app in Hg1 as [_ [Hd _]%Forall_cons]. by exists g1, d.
  - apply Forall_app in Hgs as [_ [[Hgl Hdl] _]%Forall_cons].
    rewrite map_app, concat_app. simpl. rewrite app_nil_r.
    destruct gl as [|d gl _] using rev_ind; [done|].
    apply Forall_app in Hdl as [_ [Hd _]%Forall_cons].
    exists (g1 ++ concat (map (λ g, 46%N :: g) gs) ++ 46%N :: gl), d.
    split; [|done]. by rewrite <-!app_assoc.
Qed.

Lemma numeric_core_dots {U : Unicode} g1 gs :
  isdecimal 46%N = false →
  Forall (λ c, isdecimal c = true) g1 →
  Forall (λ g, g ≠ [] ∧ Forall (λ c, isdecimal c = true) g) gs →
  count_char 46%N (g1 ++ concat (map (λ g, 46%N :: g) gs)) = length gs.
Proof.
  intros Hdot Hg1 Hgs.
  assert (∀ g, Forall (λ c, isdecimal c = true) g → count_char 46%N g = 0)
    as Hnone.
  { intros g Hg. apply count_char_none.
    eapply Forall_impl; [exact Hg|]. intros c Hc ->. congruence. }
  rewrite count_char_app, Hnone by done. simpl.
  induction Hgs as [|g gs [_ Hd] _ IH]; [done|].
  cbn [map concat length].
  change (46%N :: g) with ([46%N] ++ g).
  rewrite !count_char_app, (Hnone g), IH by done.
  unfold count_char. by rewrite filter_cons_True.
Qed.

(** X26: The level of a numeric marker is the number of its digit groups, with
    or without a final period: ["3"] and ["3."] have level 1, ["3.1"] and
    ["3.1."] level 2, and so on. *)
Theorem numeric_marker_level {U : Unicode} (ws g1 : str) (gs : list str)
    (dot : bool) (w : char) (rest : str) :
  python_tables U →
  Forall (λ c, ws_class c = true) ws →
  g1 ≠ [] → Forall (λ c, isdecimal c = true) g1 →
  Forall (λ g, g ≠ [] ∧ Forall (λ c, isdecimal c = true) g) gs →
  ws_class w = true →
  get_section_level (ws ++ numeric_marker_text g1 gs dot ++ w :: rest) =
    (S (length gs), "numeric"%string).
Proof.
  intros Htab Hws Hne Hg1 Hgs Hw.
  set (body := numeric_marker_text g1 gs dot).
  pose proof Htab as (Hdig & Hpunct & Hdot & _).
  (* the pattern matches, and what it finds is [body] *)
  assert (is_Some (SECTION_PATTERN_match (ws ++ body ++ w :: rest)))
    as [g Hmatch].
  { unfold SECTION_PATTERN_match.
    apply rmatch_complete; [by apply matches_star_cls|].
    apply rmatch_complete.
    { unfold re_marker. apply matches_Alt_l.
      by apply matches_numeric_marker. }
    change (w :: rest) with ([w] ++ rest).
    apply rmatch_complete; [|by eexists].
    apply matches_plus_cls; [done|]. by apply Forall_singleton. }
  assert (g = body) as ->.
  { pose proof Hmatch as Hsound.
    apply SECTION_PATTERN_match_sound in Hsound
      as (ws' & wp & rest' & Heq & Hws' & Hg & Hwp).
    destruct (marker_no_space g _ Htab Hg) as [Hgne Hgns].
    destruct (marker_no_space body (w :: rest) Htab) as [Hbne Hbns].
    { unfold re_marker. apply matches_Alt_l.
      by apply matches_numeric_marker. }
    pose proof (matches_accepts _ _ _ Hws') as Hws'a. simpl in Hws'a.
    pose proof (matches_accepts _ _ _ Hwp) as Hwpa. simpl in Hwpa.
    destruct wp as [|w' wp]; [by apply matches_nil_nullable in Hwp|].
    apply Forall_cons in Hwpa as [Hw' _]. rewrite orb_diag in Hw'.
    destruct body as [|b body'] eqn:Hbody; [done|].
    destruct g as [|c g']; [done|].
    apply Forall_cons in Hbns as [Hb Hbns].
    apply Forall_cons in Hgns as [Hc Hgns].
    simpl in Heq.
    destruct (span_unique ws_class ws ws' b c _ _ Hws Hws'a Hb Hc Heq)
      as [_ Heq'].
    injection Heq' as -> Heq'.
    destruct (span_unique (λ x, negb (ws_class x)) body' g' w w'
                (rest) (wp ++ rest')) as [-> _]; try done.
    - eapply Forall_impl; [exact Hbns|]. intros x ->. done.
    - eapply Forall_impl; [exact Hgns|]. intros x ->. done.
    - by rewrite Hw.
    - by rewrite Hw'. }
  unfold get_section_level. rewrite Hmatch.
  destruct (marker_no_space body (w :: rest) Htab) as [_ Hbns].
  { unfold re_marker. apply matches_Alt_l. by apply matches_numeric_marker. }
  rewrite strip_no_space
    by (eapply Forall_impl; [exact Hbns|apply ws_class_false]).
  rewrite (re_match_complete re_numeric body [] eq_refl)
    by by apply matches_numeric_marker.
  f_equal. subst body. unfold numeric_marker_text.
  destruct (numeric_core_ends_with_digit g1 gs Hne Hg1 Hgs)
    as (l & d & Hcore & Hd).
  assert (d ≠ 46%N) as Hd46 by (intros ->; congruence).
  assert (rstrip_char 46%N
            (g1 ++ concat (map (λ g, 46%N :: g) gs) ++
             (if dot then [46%N] else [])) =
          g1 ++ concat (map (λ g, 46%N :: g) gs)) as ->.
  { rewrite app_assoc, Hcore. destruct dot.
    - rewrite rstrip_char_snoc_same. by apply rstrip_char_snoc_other.
    - rewrite app_nil_r. by apply rstrip_char_snoc_other. }
  rewrite numeric_core_dots by done. lia.
Qed.

Lemma numeric_marker_level_witness :
  get_section_level (U := ascii_unicode)
    (py " " ++ numeric_marker_text (py "3") [py "1"; py "12"] true ++
     32%N :: py "Rent") = (3, "numeric"%string).
Proof.
  apply (numeric_marker_level (U := ascii_unicode) (py " ") (py "3")
           [py "1"; py "12"] true 32%N (py "Rent"));
    [exact ascii_unicode_tables | repeat constructor | discriminate
    | repeat constructor | repeat constructor; discriminate | reflexivity].
Defined.

(** ** Queries *)

Lemma rmatch_group_sound pre grp post s g :
  rmatch_group pre grp post s = Some g →
  ∃ w0 wp rest,
    s = w0 ++ g ++ wp ++ rest ∧
    matches pre w0 (g ++ wp ++ rest) ∧
    matches grp g (wp ++ rest) ∧
    matches post wp rest.
Proof.
  unfold rmatch_group. intros Hrun.
  apply rmatch_sound in Hrun as (w0 & s1 & -> & H0 & Hrun).
  apply rmatch_sound in Hrun as (wg & s2 & -> & Hg & Hrun).
  apply rmatch_sound in Hrun as (wp & s3 & -> & Hp & Hres).
  injection Hres as <-.
  replace (length (wg ++ wp ++ s3) - length (wp ++ s3)) with (length wg)
    by (rewrite (length_app wg); lia).
  rewrite take_app_length. by exists w0, wp, s3.
Qed.

Lemma matches_plus_cls_inv (p : char → bool) g s :
  matches (Plus (Cls p)) g s → g ≠ [] ∧ Forall (λ c, p c = true) g.
Proof.
  intros Hm. split.
  - intros ->. by apply matches_nil_nullable in Hm.
  - eapply Forall_impl; [exact (matches_accepts _ _ _ Hm)|].
    intros c Hc. simpl in Hc. by rewrite orb_diag in Hc.
Qed.

Lemma rmatch_group_plus_cls pre (p : char → bool) post s g :
  rmatch_group pre (Plus (Cls p)) post s = Some g →
  g ≠ [] ∧ Forall (λ c, p c = true) g.
Proof.
  intros (w0 & wp & rest & _ & _ & Hg & _)%rmatch_group_sound.
  by apply matches_plus_cls_inv in Hg.
Qed.


(** X27: What [parse_query] returns: one of the five query types; for a
    footnote or endnote query a non-empty string of decimal digits; for a
    paragraph or element query a non-empty text without newline. *)
Theorem parse_query_result {U : Unicode} {ET : ElementTree}
    {QE : QueryEnv ET} (query : str) :
  (parse_query query).1 ∈
    ["section"; "paragraph"; "footnote"; "endnote"; "element"]%string ∧
  ((parse_query query).1 = "footnote"%string ∨
   (parse_query query).1 = "endnote"%string →
   (parse_query query).2 ≠ [] ∧
   Forall (λ c, isdecimal c = true) (parse_query query).2) ∧
  ((parse_query query).1 = "paragraph"%string ∨
   (parse_query query).1 = "element"%string →
   (parse_query query).2 ≠ [] ∧
   Forall (λ c, c ≠ 10%N) (parse_query query).2).
Proof.
  unfold parse_query.
  destruct (rmatch_group (Cat (LitI "section") _) _ _ _) as [g1|] eqn:E1.
  { simpl. split; [apply list_elem_of_here|].
    split; intros [|]; discriminate. }
  destruct (rmatch_group (Cat (LitI "para") _) _ _ _) as [g2|] eqn:E2.
  { simpl. split; [apply list_elem_of_further, list_elem_of_here|].
    split; [intros [|]; discriminate|]. intros _.
    apply rmatch_group_plus_cls in E2 as [Hne Hall]. split; [done|].
    eapply Forall_impl; [exact Hall|]. intros c Hc.
    by apply bool_decide_eq_true in Hc. }
  destruct (rmatch_group (Cat (LitI "footnote") _) _ _ _) as [g3|] eqn:E3.
  { simpl. split; [do 2 apply list_elem_of_further; apply list_elem_of_here|].
    split; [|intros [|]; discriminate]. intros _.
    by apply rmatch_group_plus_cls in E3. }
  destruct (rmatch_group (Cat (LitI "endnote") _) _ _ _) as [g4|] eqn:E4.
  { simpl. split; [do 3 apply list_elem_of_further; apply list_elem_of_here|].
    split; [|intros [|]; discriminate]. intros _.
    by apply rmatch_group_plus_cls in E4. }
  destruct (rmatch_group (Cat (LitI "element") _) _ _ _) as [g5|] eqn:E5.
  { simpl. split; [do 4 apply list_elem_of_further; apply list_elem_of_here|].
    split; [intros [|]; discriminate|]. intros _.
    apply rmatch_group_plus_cls in E5 as [Hne Hall]. split; [done|].
    eapply Forall_impl; [exact Hall|]. intros c Hc.
    by apply bool_decide_eq_true in Hc. }
  simpl. split; [apply list_elem_of_here|].
  split; intros [|]; discriminate.
Qed.




Example parse_query_examples :
  let parse := parse_query (U := ascii_unicode) (QE := toy_query_env lease_files) in
  parse (py "  Section 3.1 ") = ("section"%string, py "3.1") ∧
  parse (py "para 'Rent Commencement'") =
    ("paragraph"%string, py "Rent Commencement") ∧
  parse (py "FOOTNOTE 12") = ("footnote"%string, py "12") ∧
  parse (py "endnote 3") = ("endnote"%string, py "3") ∧
  parse (py "footnote x") = ("section"%string, py "footnote x") ∧
  parse (py "(b)") = ("section"%string, py "(b)").
Proof. repeat split; reflexivity. Qed.

Example extract_from_docx_examples :
  let extract := extract_from_docx (U := ascii_unicode)
                   (EQ := toy_queries lease_files)
                   (QE := toy_query_env lease_files) in
  extract (py "lease.docx") (py "section 3.2") = Some (py "3.2 Term" ++ [10%N]) ∧
  extract (py "lease.docx") (py "section 9") = None ∧
  extract (py "lease.docx") (py "footnote 1") = None ∧
  extract (py "other.docx") (py "section 3.2") = None.
Proof. repeat split; reflexivity. Qed.

Example find_element_by_text_lease :
  find_element_by_text (U := ascii_unicode) (EQ := toy_queries lease_files)
    lease_root (py "MONTHLY") = [XText (py "is due monthly")].
Proof. reflexivity. Qed.

(** * Robustness of the backtracker *)

(** X29: The backtracker does not depend on the values of the matrix for
    ending or for rebuilding the inputs: on any matrix of [|A| + 1] rows
    of [|B| + 1] entries it returns, within [|A| + |B|] iterations, a
    script that rebuilds [A] and [B] (only the choice between [INSERT] and
    [DELETE] reads the values). *)
Theorem backtrack_lcs_any_matrix (matrix : Matrix) (A B : list str) :
  well_shaped (length A) (length B) matrix →
  ∃ script,
    (∀ extra,
       backtrack_lcs (length A + length B + extra) matrix A B = Ok script) ∧
    sequence1_of script = A ∧ sequence2_of script = B.
Proof.
  intros Hshape.
  destruct (backtrack_lcs_rebuilds matrix A B Hshape) as (script & Hbt & H1 & H2).
  exists script. split; [|done].
  intros extra. by apply backtrack_lcs_more_fuel.
Qed.

(** On a matrix of zeros the script inserts all of [B], last token last,
    after the deletions. *)
Lemma backtrack_lcs_any_matrix_witness :
  ∃ script,
    (∀ extra,
       backtrack_lcs (length [py "a"; py "b"] + length [py "b"] + extra)
         [[0; 0]; [0; 0]; [0; 0]] [py "a"; py "b"] [py "b"] = Ok script) ∧
    sequence1_of script = [py "a"; py "b"] ∧ sequence2_of script = [py "b"].
Proof.
  apply (backtrack_lcs_any_matrix [[0; 0]; [0; 0]; [0; 0]]
           [py "a"; py "b"] [py "b"]).
  split; [reflexivity|].
  intros r row Hrow.
  destruct r as [|[|[|r]]]; simpl in Hrow; try discriminate;
    injection Hrow as <-; reflexivity.
Defined.

(** * Section queries *)

Lemma drop_while_app_all {A} (p : A → bool) (l1 l2 : list A) :
  Forall (λ x, p x = true) l1 → drop_while p (l1 ++ l2) = drop_while p l2.
Proof. induction 1 as [|x l1 Hx _ IH]; [done|]. simpl. by rewrite Hx. Qed.

Lemma drop_while_head {A} (p : A → bool) (l : list A) :
  (∀ x, head l = Some x → p x = false) → drop_while p l = l.
Proof. destruct l as [|x l]; [done|]. intros H. simpl. by rewrite H. Qed.

(** [strip] removes white space at both ends and nothing else. *)
Lemma strip_core {U : Unicode} (lead core trail : str) :
  Forall (λ c, isspace c = true) lead →
  Forall (λ c, isspace c = true) trail →
  (∀ c, head core = Some c → isspace c = false) →
  (∀ c, last core = Some c → isspace c = false) →
  core ≠ [] →
  strip (lead ++ core ++ trail) = core.
Proof.
  intros Hlead Htrail Hhead Hlast Hne. unfold strip, rstrip, lstrip.
  rewrite drop_while_app_all by done.
  rewrite (drop_while_head _ (core ++ trail)).
  - rewrite reverse_app, drop_while_app_all by by apply Forall_reverse.
    rewrite drop_while_head; [apply reverse_involutive|].
    intros c Hc. apply Hlast. by rewrite <-head_reverse.
  - destruct core as [|a core]; [done|]. exact Hhead.
Qed.

Lemma rmatch_LitI_self {ET : ElementTree} {QE : QueryEnv ET} {A}
    (c : string) (rest : str) (k : str → option A) :
  (∀ x, ignorecase_eq x x = true) →
  rmatch (LitI c) (py c ++ rest) k = k rest.
Proof.
  intros Hrefl. unfold LitI. induction (py c) as [|x l IH]; [done|].
  simpl. by rewrite Hrefl.
Qed.

(** X30: A query [section X], with white space around it or not, asks for the
    section [X]: [parse_query] returns [X] itself when [X] is one line
    without white space at its ends.  (A character matches itself when
    case is ignored, and [s] is no white space.) *)
Theorem parse_query_section {U : Unicode} {ET : ElementTree}
    {QE : QueryEnv ET} (lead sp v trail : str) :
  (∀ x, ignorecase_eq x x = true) →
  isspace 115%N = false →
  Forall (λ c, isspace c = true) lead →
  Forall (λ c, isspace c = true) trail →
  sp ≠ [] → Forall (λ c, isspace c = true) sp →
  v ≠ [] → Forall (λ c, c ≠ 10%N) v →
  (∀ c, head v = Some c → isspace c = false) →
  (∀ c, last v = Some c → isspace c = false) →
  parse_query (lead ++ (py "section" ++ sp ++ v) ++ trail) =
    ("section"%string, v).
Proof.
  intros Hrefl Hs Hlead Htrail Hspne Hsp Hvne Hnl Hhead Hlast.
  unfold parse_query.
  rewrite strip_core; [|done|done| | |done].
  2: { intros c [= <-]. done. }
  2: { intros c. rewrite app_assoc, last_app.
       destruct (last v) as [z|] eqn:Hz; [|by apply last_None in Hz].
       intros [= <-]. by apply Hlast. }
  assert (rmatch_group (Cat (LitI "section") (Plus (Cls isspace)))
            (Plus re_dot) Dollar (py "section" ++ sp ++ v) = Some v) as ->.
  { unfold rmatch_group. rewrite rmatch_Cat, rmatch_LitI_self by done.
    destruct sp as [|c sp]; [done|].
    apply Forall_cons in Hsp as [Hc Hsp].
    unfold Plus at 1. rewrite rmatch_Cat.
    change ((c :: sp) ++ v) with (c :: sp ++ v).
    rewrite rmatch_Cls_cons, Hc, rmatch_Star.
    apply star_loop_cls_greedy; [| |done|done].
    { intros a v' ->. by apply Hhead. }
    destruct v as [|d v']; [done|].
    apply Forall_cons in Hnl as [Hd Hnl].
    unfold Plus, re_dot. rewrite rmatch_Cat, rmatch_Cls_cons.
    rewrite bool_decide_eq_true_2 by done. rewrite rmatch_Star.
    rewrite <-(app_nil_r v') at 1 2.
    apply star_loop_cls_greedy; [done| | |done].
    - cbn [rmatch]. rewrite bool_decide_eq_true_2 by (by left). f_equal.
      change (length (@nil char)) with 0. rewrite Nat.sub_0_r.
      apply (firstn_all (d :: v')).
    - eapply Forall_impl; [exact Hnl|]. intros x Hx.
      by apply bool_decide_eq_true_2. }
  f_equal. rewrite <-(app_nil_r v) at 1.
  apply (strip_core [] v []); done.
Qed.

Lemma parse_query_section_witness :
  parse_query (U := ascii_unicode) (QE := toy_query_env lease_files)
    (py " " ++ (py "section" ++ py "  " ++ py "3.1 (b)") ++ py " ") =
    ("section"%string, py "3.1 (b)").
Proof.
  apply (parse_query_section (U := ascii_unicode)
           (QE := toy_query_env lease_files)
           (py " ") (py "  ") (py "3.1 (b)") (py " "));
    [ intros x; apply bool_decide_eq_true_2; reflexivity
    | reflexivity | repeat constructor | repeat constructor | discriminate
    | repeat constructor | discriminate | repeat constructor; discriminate
    | intros c [= <-]; reflexivity | intros c [= <-]; reflexivity ].
Defined.
